(** * ROBAST [AMultilayer]: the coherent transfer-matrix solver

    A shallow embedding of [src/AMultilayer.cxx].  The C++ code works on
    [Double_t] and [std::complex<Double_t>]; every arithmetic operator and
    every [<cmath>]/[<complex>] function it calls is a field of the class
    [Arithmetic] below, and no algebraic law is assumed about them, so the
    theorems hold for IEEE binary64 as well as for exact arithmetic.
    [std::vector] is a [list], read with stdpp's total lookup [l !!! i] and
    written with [<[i:=x]> l]; ROOT's [Error] only prints, so it is an
    append to a log carried, with the function-local static latch, in the
    state of a small state monad. *)

From Stdlib Require Import ZArith List Lia Reals Lra.
From stdpp Require Import base list.
Import ListNotations.

(** ** Arithmetic interface *)

Class Arithmetic := {
  Double_t : Type;
  complex : Type;
  (* the double denoted by an integer literal ([100], [35], [2.], [1.]) *)
  D_of_Z : Z -> Double_t;
  (* std::numeric_limits<double>::epsilon(), ...::infinity(), TMath::Pi(),
     TMath::TwoPi() *)
  EPSILON : Double_t;
  inf : Double_t;
  Pi : Double_t;
  TwoPi : Double_t;
  (* double arithmetic and comparisons; the four comparisons are separate
     because they are not each other's negation on NaN *)
  Dmul : Double_t -> Double_t -> Double_t;
  Ddiv : Double_t -> Double_t -> Double_t;
  Dabs : Double_t -> Double_t;
  Dlt : Double_t -> Double_t -> bool;
  Dle : Double_t -> Double_t -> bool;
  Dgt : Double_t -> Double_t -> bool;
  Dge : Double_t -> Double_t -> bool;
  (* std::complex<Double_t> *)
  Cmake : Double_t -> Double_t -> complex;
  real : complex -> Double_t;
  imag : complex -> Double_t;
  Cadd : complex -> complex -> complex;
  Csub : complex -> complex -> complex;
  Cmul : complex -> complex -> complex;
  Cdiv : complex -> complex -> complex;
  Cneg : complex -> complex;
  Cconj : complex -> complex;
  Csin : complex -> complex;
  Ccos : complex -> complex;
  Casin : complex -> complex;
  Cexp : complex -> complex;
  Cabs : complex -> Double_t;
  (* mixed operators  double (op) complex  and  complex (op) double *)
  DCmul : Double_t -> complex -> complex;
  DCdiv : Double_t -> complex -> complex;
  DCadd : Double_t -> complex -> complex;
  DCsub : Double_t -> complex -> complex;
  CDmul : complex -> Double_t -> complex;
  CDdiv : complex -> Double_t -> complex
}.

Section Solver.

Context {AR : Arithmetic}.

(** Implicit conversion [Double_t -> std::complex<Double_t>]: the
    imaginary part defaults to zero. *)
Definition C_of_D (x : Double_t) : complex := Cmake x (D_of_Z 0).

(** Conversion of an integer literal to [std::complex<Double_t>]. *)
Definition C_of_Z (z : Z) : complex := C_of_D (D_of_Z z).

(** Reading a vector outside its bounds is undefined in the source; the
    model then yields this value.  No theorem below reads out of range. *)
#[global] Instance complex_inhabited : Inhabited complex := populate (C_of_Z 0).
#[global] Instance Double_t_inhabited : Inhabited Double_t := populate (D_of_Z 0).

(** ** Diagnostics and the static latch *)

(** The four texts the file passes to ROOT's [Error].  The two
    [IsForwardAngle] texts are formatted with [n] and [theta]. *)
Inductive Message : Type :=
| MsgGain (n theta : complex)        (* "For materials with gain, ..." *)
| MsgUnclear (n theta : complex)     (* "It's not clear which beam ..." *)
| MsgInput                           (* "Error in n0 or th0!" *)
| MsgOpacity.                        (* "Warning: Layers that are almost ..." *)

(** Process state seen by the solver: [opacity_warning] is the
    function-local [static Bool_t] of [CoherentTMM]; [errors] is what
    [Error] has printed so far, oldest first. *)
Record World : Type := MkWorld {
  opacity_warning : bool;
  errors : list Message
}.

Definition initial_world : World := MkWorld false [].

Definition M (A : Type) : Type := World -> A * World.

Definition ret {A} (a : A) : M A := fun w => (a, w).

Definition bind {A B} (m : M A) (f : A -> M B) : M B :=
  fun w => let (a, w') := m w in f a w'.

Notation "x <- m ;; f" := (bind m (fun x => f))
  (at level 100, m at next level, right associativity).
Notation "m ;;; f" := (bind m (fun _ => f))
  (at level 100, right associativity).

(** ROOT's [TObject::Error]: prints and returns. *)
Definition Error (msg : Message) : M unit :=
  fun w => (tt, MkWorld (opacity_warning w) (errors w ++ [msg])).

Definition get_opacity_warning : M bool :=
  fun w => (opacity_warning w, w).

Definition set_opacity_warning (b : bool) : M unit :=
  fun w => (tt, MkWorld b (errors w)).

(** [if (c) m;] *)
Definition when (c : bool) (m : M unit) : M unit :=
  if c then m else ret tt.

(** [for (i = lo; i < lo + n; ++i) s = body(i, s);] *)
Fixpoint for_loop {S} (lo n : nat) (body : nat -> S -> S) (s : S) : S :=
  match n with
  | O => s
  | Datatypes.S n' => for_loop (Datatypes.S lo) n' body (body lo s)
  end.

Fixpoint for_loopM {S} (lo n : nat) (body : nat -> S -> M S) (s : S) : M S :=
  match n with
  | O => ret s
  | Datatypes.S n' => s' <- body lo s ;; for_loopM (Datatypes.S lo) n' body s'
  end.

(** ** std::vector *)

Definition push_back {A} (l : list A) (x : A) : list A := l ++ [x].

(** [v.insert(v.end() - 1, x)] *)
Definition insert_before_end {A} (l : list A) (x : A) : list A :=
  take (length l - 1) l ++ x :: drop (length l - 1) l.

Definition front `{Inhabited A} (l : list A) : A := l !!! 0%nat.
Definition back `{Inhabited A} (l : list A) : A := l !!! (length l - 1)%nat.
Definition set_front {A} (x : A) (l : list A) : list A := <[0%nat := x]> l.
Definition set_back {A} (x : A) (l : list A) : list A :=
  <[(length l - 1)%nat := x]> l.

(** ** The stack *)

(** Modelled from the spec: [ARefractiveIndex.h] is not among the sources;
    the solver uses one method of it, which yields the complex refractive
    index at a vacuum wavelength (the spec's [index_at]). *)
Record ARefractiveIndex : Type := MkRefractiveIndex {
  GetComplexRefractiveIndex : Double_t -> complex
}.

#[global] Instance ARefractiveIndex_inhabited : Inhabited ARefractiveIndex :=
  populate (MkRefractiveIndex (fun _ => C_of_Z 0)).

Record AMultilayer : Type := MkMultilayer {
  fRefractiveIndexList : list ARefractiveIndex;
  fThicknessList : list Double_t
}.

Definition InsertLayer (self : AMultilayer) (idx : ARefractiveIndex)
    (thickness : Double_t) : AMultilayer :=
  MkMultilayer (insert_before_end (fRefractiveIndexList self) idx)
               (insert_before_end (fThicknessList self) thickness).

(** The constructor [AMultilayer::AMultilayer(top, bottom)]. *)
Definition AMultilayer_new (top bottom : ARefractiveIndex) : AMultilayer :=
  let self := MkMultilayer (push_back [] bottom) (push_back [] inf) in
  InsertLayer self top inf.

(** A stack as client code obtains it: the constructor followed by calls
    of [InsertLayer], in order. *)
Definition build (top bottom : ARefractiveIndex)
    (ins : list (ARefractiveIndex * Double_t)) : AMultilayer :=
  fold_left (fun s l => InsertLayer s (fst l) (snd l)) ins
            (AMultilayer_new top bottom).

(** ** A2x2ComplexMatrix *)

(** Modelled from the spec: [A2x2ComplexMatrix.h] is not among the sources.
    A value with four complex components, the row-by-column product,
    left-multiplication by a complex scalar and right-division by a
    complex scalar. *)
Record A2x2ComplexMatrix : Type := MkMatrix {
  Get00 : complex;
  Get01 : complex;
  Get10 : complex;
  Get11 : complex
}.

#[global] Instance A2x2ComplexMatrix_inhabited : Inhabited A2x2ComplexMatrix :=
  populate (MkMatrix (C_of_Z 0) (C_of_Z 0) (C_of_Z 0) (C_of_Z 0)).

(** Modelled from the spec: matrix product, row by column. *)
Definition Mmul (a b : A2x2ComplexMatrix) : A2x2ComplexMatrix :=
  MkMatrix (Cadd (Cmul (Get00 a) (Get00 b)) (Cmul (Get01 a) (Get10 b)))
           (Cadd (Cmul (Get00 a) (Get01 b)) (Cmul (Get01 a) (Get11 b)))
           (Cadd (Cmul (Get10 a) (Get00 b)) (Cmul (Get11 a) (Get10 b)))
           (Cadd (Cmul (Get10 a) (Get01 b)) (Cmul (Get11 a) (Get11 b))).

(** Modelled from the spec: left-multiplication by a complex scalar. *)
Definition Mscale (c : complex) (a : A2x2ComplexMatrix) : A2x2ComplexMatrix :=
  MkMatrix (Cmul c (Get00 a)) (Cmul c (Get01 a))
           (Cmul c (Get10 a)) (Cmul c (Get11 a)).

(** Modelled from the spec: right-division by a complex scalar. *)
Definition Mdiv (a : A2x2ComplexMatrix) (c : complex) : A2x2ComplexMatrix :=
  MkMatrix (Cdiv (Get00 a) c) (Cdiv (Get01 a) c)
           (Cdiv (Get10 a) c) (Cdiv (Get11 a) c).

(** ** IsForwardAngle (lines 37-86)

    The six consistency checks are as the source has them; the last one,
    on line 83, prints when [Re(n cos(conj theta))] is below [100 eps]. *)

Definition IsForwardAngle (n theta : complex) : M bool :=
  when (Dlt (Dmul (real n) (imag n)) (D_of_Z 0)) (Error (MsgGain n theta)) ;;;
  let ncostheta := Cmul n (Ccos theta) in
  let answer :=
    if Dgt (Dabs (imag ncostheta)) (Dmul (D_of_Z 100) EPSILON)
    then Dgt (imag ncostheta) (D_of_Z 0)
    else Dgt (real ncostheta) (D_of_Z 0) in
  let error_string := MsgUnclear n theta in
  (if answer then
     when (Dle (imag ncostheta) (Dmul (D_of_Z (-100)) EPSILON))
          (Error error_string) ;;;
     when (Dle (real ncostheta) (Dmul (D_of_Z (-100)) EPSILON))
          (Error error_string) ;;;
     when (Dle (real (Cmul n (Ccos (Cconj theta))))
               (Dmul (D_of_Z (-100)) EPSILON))
          (Error error_string)
   else
     when (Dge (imag ncostheta) (Dmul (D_of_Z 100) EPSILON))
          (Error error_string) ;;;
     when (Dge (real ncostheta) (Dmul (D_of_Z 100) EPSILON))
          (Error error_string) ;;;
     when (Dlt (real (Cmul n (Ccos (Cconj theta))))
               (Dmul (D_of_Z 100) EPSILON))
          (Error error_string)) ;;;
  ret answer.

(** ** ListSnell (lines 89-113) *)

Definition ListSnell (self : AMultilayer) (th_0 : complex)
    (n_list th_list : list complex) : M (list complex) :=
  let num_layers := length (fRefractiveIndexList self) in
  let th_list :=
    for_loop 0 num_layers (fun i th_list =>
      let angle_i :=
        Casin (Cdiv (Cmul (n_list !!! 0%nat) (Csin th_0)) (n_list !!! i)) in
      push_back th_list angle_i) th_list in
  fwd <- IsForwardAngle (n_list !!! 0%nat) (th_list !!! 0%nat) ;;
  let th_list :=
    if negb fwd then set_front (DCsub Pi (front th_list)) th_list
    else th_list in
  fwd <- IsForwardAngle (back n_list) (back th_list) ;;
  let th_list :=
    if negb fwd then set_back (DCsub Pi (back th_list)) th_list
    else th_list in
  ret th_list.

(** ** CoherentTMM (lines 129-296)

    The body is cut into its consecutive blocks, one definition per block,
    named after the local variable the block fills.  The loop bounds
    [num_layers - 1] are unsigned in the source; truncated subtraction on
    [nat] agrees with them whenever the stack is not empty, which the
    constructor guarantees. *)

(** Declared in [AMultilayer.h], which is not among the sources; the
    source tests [polarization == kS] and treats any other value as P. *)
Inductive EPolarization : Type := kS | kP.

(** lines 158-162 *)
Definition n_list_of (self : AMultilayer) (lam_vac : Double_t) : list complex :=
  let num_layers := length (fRefractiveIndexList self) in
  for_loop 0 num_layers (fun i n_list =>
    push_back n_list
      (GetComplexRefractiveIndex (fRefractiveIndexList self !!! i) lam_vac)) [].

(** lines 165-168; [||] evaluates its right operand only when the left
    one is false. *)
Definition input_tests (n_list : list complex) (th_0 : complex) : M unit :=
  failed <-
    (if Dge (Dabs (imag (Cmul (n_list !!! 0%nat) (Csin th_0))))
            (Dmul (D_of_Z 100) EPSILON)
     then ret true
     else fwd <- IsForwardAngle (n_list !!! 0%nat) th_0 ;; ret (negb fwd)) ;;
  when failed (Error MsgInput).

(** lines 178-181 *)
Definition kz_list_of (num_layers : nat) (n_list th_list : list complex)
    (lam_vac : Double_t) : list complex :=
  for_loop 0 num_layers (fun i kz_list =>
    push_back kz_list
      (CDdiv (Cmul (DCmul TwoPi (n_list !!! i)) (Ccos (th_list !!! i)))
             lam_vac)) [].

(** lines 184-187 *)
Definition delta_of (num_layers : nat) (kz_list : list complex)
    (fThicknessList : list Double_t) : list complex :=
  for_loop 0 num_layers (fun i delta =>
    <[i := CDmul (kz_list !!! i) (fThicknessList !!! i)]> delta)
    (replicate num_layers (C_of_Z 0)).

(** lines 193-207 *)
Definition clamp_opaque (num_layers : nat) (delta : list complex)
    : M (list complex) :=
  for_loopM 1 (num_layers - 1 - 1) (fun i delta =>
    if Dgt (imag (delta !!! i)) (D_of_Z 35) then
      let delta :=
        <[i := DCadd (real (delta !!! i)) (Cmake (D_of_Z 0) (D_of_Z 35))]>
          delta in
      opacity_warning <- get_opacity_warning ;;
      (if negb opacity_warning
       then set_opacity_warning true ;;; Error MsgOpacity
       else ret tt) ;;;
      ret delta
    else ret delta) delta.

(** lines 212-229; the state of the loop is the pair (t_list, r_list). *)
Definition fresnel (num_layers : nat) (polarization : EPolarization)
    (n_list th_list : list complex) : list complex * list complex :=
  for_loop 0 (num_layers - 1) (fun i tr =>
    let cosi := Ccos (th_list !!! i) in
    let cosf := Ccos (th_list !!! (i + 1)%nat) in
    let ii := Cmul (n_list !!! i) cosi in
    match polarization with
    | kS =>
        let ff := Cmul (n_list !!! (i + 1)%nat) cosf in
        (<[i := Cdiv (DCmul (D_of_Z 2) ii) (Cadd ii ff)]> (fst tr),
         <[i := Cdiv (Csub ii ff) (Cadd ii ff)]> (snd tr))
    | kP =>
        let fi := Cmul (n_list !!! (i + 1)%nat) cosi in
        let if_ := Cmul (n_list !!! i) cosf in
        (<[i := Cdiv (DCmul (D_of_Z 2) ii) (Cadd fi if_)]> (fst tr),
         <[i := Cdiv (Csub fi if_) (Cadd fi if_)]> (snd tr))
    end)
    (replicate num_layers (C_of_Z 0), replicate num_layers (C_of_Z 0)).

(** lines 238-249 *)
Definition M_list_of (num_layers : nat) (t_list r_list delta : list complex)
    : list A2x2ComplexMatrix :=
  let M_list :=
    push_back [] (MkMatrix (C_of_Z 0) (C_of_Z 0) (C_of_Z 0) (C_of_Z 0)) in
  let M_list :=
    for_loop 1 (num_layers - 1 - 1) (fun i M_list =>
      let j := Cmake (D_of_Z 0) (D_of_Z 1) in
      push_back M_list
        (Mmul (Mscale (DCdiv (D_of_Z 1) (t_list !!! i))
                 (MkMatrix (Cexp (Cmul (Cneg j) (delta !!! i))) (C_of_Z 0)
                           (C_of_Z 0) (Cexp (Cmul j (delta !!! i)))))
              (MkMatrix (C_of_Z 1) (r_list !!! i) (r_list !!! i) (C_of_Z 1))))
      M_list in
  push_back M_list (MkMatrix (C_of_Z 0) (C_of_Z 0) (C_of_Z 0) (C_of_Z 0)).

(** lines 251-255 *)
Definition Mtilde_product (num_layers : nat) (M_list : list A2x2ComplexMatrix)
    : A2x2ComplexMatrix :=
  for_loop 1 (num_layers - 1 - 1) (fun i Mtilde => Mmul Mtilde (M_list !!! i))
    (MkMatrix (C_of_Z 1) (C_of_Z 0) (C_of_Z 0) (C_of_Z 1)).

(** The local variables of [CoherentTMM] when it returns. *)
Record Locals : Type := MkLocals {
  L_n_list : list complex;
  L_th_list : list complex;
  L_kz_list : list complex;
  L_delta : list complex;
  L_t_list : list complex;
  L_r_list : list complex;
  L_M_list : list A2x2ComplexMatrix;
  L_Mtilde : A2x2ComplexMatrix;
  L_r : complex;
  L_t : complex;
  L_reflectance : Double_t;
  L_transmittance : Double_t
}.

(** lines 209-295: everything after the opacity loop, which neither
    prints nor touches the latch. *)
Definition amplitudes_and_power (self : AMultilayer)
    (polarization : EPolarization) (th_0 : complex)
    (n_list th_list kz_list delta : list complex) : Locals :=
  let num_layers := length (fRefractiveIndexList self) in
  let tr := fresnel num_layers polarization n_list th_list in
  let t_list := fst tr in
  let r_list := snd tr in
  let M_list := M_list_of num_layers t_list r_list delta in
  let Mtilde := Mtilde_product num_layers M_list in
  (* line 257 *)
  let Mtilde :=
    Mmul (Mdiv (MkMatrix (C_of_Z 1) (r_list !!! 0%nat) (r_list !!! 0%nat)
                         (C_of_Z 1))
               (t_list !!! 0%nat))
         Mtilde in
  (* lines 260-261 *)
  let r := Cdiv (Get10 Mtilde) (Get00 Mtilde) in
  let t := DCdiv (D_of_Z 1) (Get00 Mtilde) in
  (* lines 284-295 *)
  let reflectance := Dmul (Cabs r) (Cabs r) in
  let n_i := n_list !!! 0%nat in
  let n_f := back n_list in
  let th_i := th_0 in
  let th_f := back th_list in
  let transmittance :=
    match polarization with
    | kS => Dmul (Cabs (Cmul t t))
                 (Ddiv (real (Cmul n_f (Ccos th_f)))
                       (real (Cmul n_i (Ccos th_i))))
    | kP => Dmul (Cabs (Cmul t t))
                 (Ddiv (real (Cmul n_f (Cconj (Ccos th_f))))
                       (real (Cmul n_i (Cconj (Ccos th_i)))))
    end in
  MkLocals n_list th_list kz_list delta t_list r_list M_list Mtilde r t
           reflectance transmittance.

Definition CoherentTMM_locals (self : AMultilayer)
    (polarization : EPolarization) (th_0 : complex) (lam_vac : Double_t)
    : M Locals :=
  let num_layers := length (fRefractiveIndexList self) in
  let n_list := n_list_of self lam_vac in
  input_tests n_list th_0 ;;;
  th_list <- ListSnell self th_0 n_list [] ;;
  let kz_list := kz_list_of num_layers n_list th_list lam_vac in
  let delta := delta_of num_layers kz_list (fThicknessList self) in
  delta <- clamp_opaque num_layers delta ;;
  ret (amplitudes_and_power self polarization th_0 n_list th_list kz_list
                            delta).

(** The caller's two variables bound to the reference parameters
    [reflectance] and [transmittance]; [None] is a variable the call has
    not assigned. *)
Record Outputs : Type := MkOutputs {
  reflectance : option Double_t;
  transmittance : option Double_t
}.

Definition CoherentTMM (self : AMultilayer) (polarization : EPolarization)
    (th_0 : complex) (lam_vac : Double_t) : M Outputs :=
  L <- CoherentTMM_locals self polarization th_0 lam_vac ;;
  ret (MkOutputs (Some (L_reflectance L)) (Some (L_transmittance L))).

(** One call of the solver, and a process that makes a sequence of them. *)
Record Call : Type := MkCall {
  call_stack : AMultilayer;
  call_polarization : EPolarization;
  call_th_0 : complex;
  call_lam_vac : Double_t
}.

Definition run_call (c : Call) : M Outputs :=
  CoherentTMM (call_stack c) (call_polarization c) (call_th_0 c)
              (call_lam_vac c).

Fixpoint run_calls (cs : list Call) (w : World) : list Outputs * World :=
  match cs with
  | [] => ([], w)
  | c :: cs' =>
      let (o, w') := run_call c w in
      let (os, w'') := run_calls cs' w' in
      (o :: os, w'')
  end.

Definition is_opacity (m : Message) : bool :=
  match m with MsgOpacity => true | _ => false end.

(** How many times the opacity warning has been printed. *)
Definition count_opacity (log : list Message) : nat :=
  length (List.filter is_opacity log).

(** ** The spec's wording, for comparison with the code *)

(** Section 4.4.2 of the spec: the wave is forward-propagating iff
    (1) if |Im(n cos theta)| > 100 eps, Im(n cos theta) > 0;
    (2) otherwise Re(n cos theta) > 0. *)
Definition spec_forward (n theta : complex) : Prop :=
  if Dgt (Dabs (imag (Cmul n (Ccos theta)))) (Dmul (D_of_Z 100) EPSILON)
  then Dgt (imag (Cmul n (Ccos theta))) (D_of_Z 0) = true
  else Dgt (real (Cmul n (Ccos theta))) (D_of_Z 0) = true.

Definition num_layers (self : AMultilayer) : nat :=
  length (fRefractiveIndexList self).

(** ** What the effectful functions return and print

    The value of the local variable [answer] of [IsForwardAngle], the
    vector [ListSnell] leaves in [th_list], the vector the opacity loop
    leaves in [delta] and the outcome of the input test, each as a
    function of the arguments alone; the lemmas of the second part show
    that the state monad computes exactly these values whatever the state
    of the process. *)

Definition IsForwardAngle_answer (n theta : complex) : bool :=
  let ncostheta := Cmul n (Ccos theta) in
  if Dgt (Dabs (imag ncostheta)) (Dmul (D_of_Z 100) EPSILON)
  then Dgt (imag ncostheta) (D_of_Z 0)
  else Dgt (real ncostheta) (D_of_Z 0).

Definition ListSnell_value (self : AMultilayer) (th_0 : complex)
    (n_list th_list : list complex) : list complex :=
  let num_layers := length (fRefractiveIndexList self) in
  let th_list :=
    for_loop 0 num_layers (fun i th_list =>
      push_back th_list
        (Casin (Cdiv (Cmul (n_list !!! 0%nat) (Csin th_0)) (n_list !!! i))))
      th_list in
  let th_list :=
    if negb (IsForwardAngle_answer (n_list !!! 0%nat) (th_list !!! 0%nat))
    then set_front (DCsub Pi (front th_list)) th_list else th_list in
  if negb (IsForwardAngle_answer (back n_list) (back th_list))
  then set_back (DCsub Pi (back th_list)) th_list else th_list.

Definition clamp_value (num_layers : nat) (delta : list complex)
    : list complex :=
  for_loop 1 (num_layers - 1 - 1) (fun i delta =>
    if Dgt (imag (delta !!! i)) (D_of_Z 35)
    then <[i := DCadd (real (delta !!! i)) (Cmake (D_of_Z 0) (D_of_Z 35))]>
           delta
    else delta) delta.

Definition input_test_fails (n_list : list complex) (th_0 : complex) : bool :=
  Dge (Dabs (imag (Cmul (n_list !!! 0%nat) (Csin th_0))))
      (Dmul (D_of_Z 100) EPSILON)
  || negb (IsForwardAngle_answer (n_list !!! 0%nat) th_0).

Definition CoherentTMM_value (self : AMultilayer)
    (polarization : EPolarization) (th_0 : complex) (lam_vac : Double_t)
    : Locals :=
  let num_layers := length (fRefractiveIndexList self) in
  let n_list := n_list_of self lam_vac in
  let th_list := ListSnell_value self th_0 n_list [] in
  let kz_list := kz_list_of num_layers n_list th_list lam_vac in
  let delta :=
    clamp_value num_layers
      (delta_of num_layers kz_list (fThicknessList self)) in
  amplitudes_and_power self polarization th_0 n_list th_list kz_list delta.

(** The Fresnel amplitudes of interface [(i, i+1)], as lines 216-228
    compute them. *)
Definition fresnel_t (pol : EPolarization) (n_list th_list : list complex)
    (i : nat) : complex :=
  let c i := Ccos (th_list !!! i) in
  let n i := n_list !!! i in
  match pol with
  | kS => Cdiv (DCmul (D_of_Z 2) (Cmul (n i) (c i)))
               (Cadd (Cmul (n i) (c i))
                     (Cmul (n (i + 1)%nat) (c (i + 1)%nat)))
  | kP => Cdiv (DCmul (D_of_Z 2) (Cmul (n i) (c i)))
               (Cadd (Cmul (n (i + 1)%nat) (c i))
                     (Cmul (n i) (c (i + 1)%nat)))
  end.

Definition fresnel_r (pol : EPolarization) (n_list th_list : list complex)
    (i : nat) : complex :=
  let c i := Ccos (th_list !!! i) in
  let n i := n_list !!! i in
  match pol with
  | kS => Cdiv (Csub (Cmul (n i) (c i))
                     (Cmul (n (i + 1)%nat) (c (i + 1)%nat)))
               (Cadd (Cmul (n i) (c i))
                     (Cmul (n (i + 1)%nat) (c (i + 1)%nat)))
  | kP => Cdiv (Csub (Cmul (n (i + 1)%nat) (c i))
                     (Cmul (n i) (c (i + 1)%nat)))
               (Cadd (Cmul (n (i + 1)%nat) (c i))
                     (Cmul (n i) (c (i + 1)%nat)))
  end.

(** The interior matrix [M_i] of lines 242-245. *)
Definition layer_matrix (t_i r_i delta_i : complex) : A2x2ComplexMatrix :=
  let j := Cmake (D_of_Z 0) (D_of_Z 1) in
  Mmul (Mscale (DCdiv (D_of_Z 1) t_i)
          (MkMatrix (Cexp (Cmul (Cneg j) delta_i)) (C_of_Z 0)
                    (C_of_Z 0) (Cexp (Cmul j delta_i))))
       (MkMatrix (C_of_Z 1) r_i r_i (C_of_Z 1)).

(** What a computation prints when run in [w]. *)
Definition printed {A} (m : M A) (w : World) : list Message :=
  drop (length (errors w)) (errors (snd (m w))).

(** [m], run in [w], returns [a], leaves the latch at [latch] and prints
    [extra]. *)
Definition run_with {A} (m : M A) (w : World) (a : A) (latch : bool)
    (extra : list Message) : Prop :=
  m w = (a, MkWorld latch (errors w ++ extra)).

(** The messages of [IsForwardAngle]. *)
Definition is_angle_msg (m : Message) : Prop :=
  match m with MsgGain _ _ | MsgUnclear _ _ => True | _ => False end.

(** What the opacity loop may do to the latch, and print: nothing, or,
    if the latch was clear, set it and print the warning once. *)
Definition latch_step (l l' : bool) (extra : list Message) : Prop :=
  (l' = l /\ extra = []) \/ (l = false /\ l' = true /\ extra = [MsgOpacity]).

(** The spec's failure semantics for a solve run in [w]: the domain error
    is reported and neither output is assigned. *)
Definition rejected (m : M Outputs) (w : World) : Prop :=
  In MsgInput (printed m w) /\ fst (m w) = MkOutputs None None.

(** While the latch is clear the warning has not been printed; once it is
    set the warning has been printed at most once. *)
Definition latch_invariant (w : World) : Prop :=
  if opacity_warning w then count_opacity (errors w) <= 1
  else count_opacity (errors w) = 0%nat.

(** ** PrintLayers (lines 299-307)

    What goes to [std::cout], line by line: a rule of dashes before every
    layer and after the last one, and for layer [i] its number, its index
    at [lambda] and its thickness divided by [AOpticsManager::nm()].  That
    unit is declared in [AOpticsManager.h], which is not among the sources,
    and is a parameter here. *)

Inductive PrintedLine : Type :=
| LineRule
| LineLayer (i : nat) (n_i : complex) (d_i : Double_t).

Definition PrintLayers (nm : Double_t) (self : AMultilayer)
    (lambda : Double_t) : list PrintedLine :=
  let n := length (fRefractiveIndexList self) in
  let out :=
    for_loop 0 n (fun i out =>
      out ++ [LineRule;
              LineLayer i
                (GetComplexRefractiveIndex (fRefractiveIndexList self !!! i)
                                           lambda)
                (Ddiv (fThicknessList self !!! i) nm)]) [] in
  out ++ [LineRule].

(** ** Further notions used by the properties *)

(** Some interior phase of [delta] exceeds 35. *)
Definition any_opaque (num_layers : nat) (delta : list complex) : bool :=
  existsb (fun i => Dgt (imag (delta !!! i)) (D_of_Z 35))
          (seq 1 (num_layers - 1 - 1)).

(** The effect of lines 197-205 on the process: nothing if the latch is
    set; otherwise set it and print the warning. *)
Definition warn_once (w : World) : World :=
  if opacity_warning w then w
  else MkWorld true (errors w ++ [MsgOpacity]).

Definition is_input (m : Message) : bool :=
  match m with MsgInput => true | _ => false end.

(** How many times "Error in n0 or th0!" has been printed. *)
Definition count_input (log : list Message) : nat :=
  length (List.filter is_input log).

End Solver.

(** ** Exact arithmetic

    An instance of [Arithmetic] without rounding: a [Double_t] is a real
    number, an infinity or NaN, with the IEEE conventions for the
    infinities (there are no signed zeros: a division of a nonzero number
    by zero takes the sign of the dividend).  It is the arithmetic in
    which the formulas of the reference derivation are stated, and the one
    concrete inputs are evaluated in. *)
Module Exact.

Local Open Scope R_scope.

Inductive xreal : Type := Fin (x : R) | PInf | NInf | NaN.

Definition Rltb (a b : R) : bool := if Rlt_dec a b then true else false.
Definition Rleb (a b : R) : bool := if Rle_dec a b then true else false.
Definition Reqb (a b : R) : bool := if Req_dec_T a b then true else false.

Definition xneg (x : xreal) : xreal :=
  match x with
  | Fin a => Fin (- a)
  | PInf => NInf
  | NInf => PInf
  | NaN => NaN
  end.

Definition xadd (x y : xreal) : xreal :=
  match x, y with
  | Fin a, Fin b => Fin (a + b)
  | NaN, _ | _, NaN => NaN
  | PInf, NInf | NInf, PInf => NaN
  | PInf, _ | _, PInf => PInf
  | NInf, _ | _, NInf => NInf
  end.

Definition xsub (x y : xreal) : xreal := xadd x (xneg y).

(** An infinity times, or over, a finite number [a]. *)
Definition scale_inf (i : xreal) (a : R) : xreal :=
  if Rltb 0 a then i else if Rltb a 0 then xneg i else NaN.

Definition xmul (x y : xreal) : xreal :=
  match x, y with
  | Fin a, Fin b => Fin (a * b)
  | NaN, _ | _, NaN => NaN
  | Fin a, i | i, Fin a => scale_inf i a
  | PInf, PInf | NInf, NInf => PInf
  | PInf, NInf | NInf, PInf => NInf
  end.

Definition xdiv (x y : xreal) : xreal :=
  match x, y with
  | Fin a, Fin b => if Reqb b 0 then scale_inf PInf a else Fin (a / b)
  | NaN, _ | _, NaN => NaN
  | Fin _, _ => Fin 0
  | i, Fin b => if Reqb b 0 then i else scale_inf i b
  | _, _ => NaN
  end.

Definition xabs (x : xreal) : xreal :=
  match x with
  | Fin a => Fin (Rabs a)
  | PInf | NInf => PInf
  | NaN => NaN
  end.

Definition xlt (x y : xreal) : bool :=
  match x, y with
  | Fin a, Fin b => Rltb a b
  | NaN, _ | _, NaN => false
  | NInf, NInf | PInf, _ => false
  | NInf, _ | _, PInf => true
  | _, NInf => false
  end.

Definition xle (x y : xreal) : bool :=
  match x, y with
  | Fin a, Fin b => Rleb a b
  | NaN, _ | _, NaN => false
  | NInf, _ | _, PInf => true
  | _, _ => false
  end.

Record xcomplex : Type := MkC { re : xreal; im : xreal }.

Definition finite2 (f : R -> R -> xcomplex) (z : xcomplex) : xcomplex :=
  match re z, im z with
  | Fin a, Fin b => f a b
  | _, _ => MkC NaN NaN
  end.

Definition xcadd (z w : xcomplex) : xcomplex :=
  MkC (xadd (re z) (re w)) (xadd (im z) (im w)).
Definition xcsub (z w : xcomplex) : xcomplex :=
  MkC (xsub (re z) (re w)) (xsub (im z) (im w)).
Definition xcneg (z : xcomplex) : xcomplex := MkC (xneg (re z)) (xneg (im z)).
Definition xcconj (z : xcomplex) : xcomplex := MkC (re z) (xneg (im z)).
Definition xcmul (z w : xcomplex) : xcomplex :=
  MkC (xsub (xmul (re z) (re w)) (xmul (im z) (im w)))
      (xadd (xmul (re z) (im w)) (xmul (im z) (re w))).
Definition xcdiv (z w : xcomplex) : xcomplex :=
  let d := xadd (xmul (re w) (re w)) (xmul (im w) (im w)) in
  MkC (xdiv (xadd (xmul (re z) (re w)) (xmul (im z) (im w))) d)
      (xdiv (xsub (xmul (im z) (re w)) (xmul (re z) (im w))) d).

Definition xcsin : xcomplex -> xcomplex :=
  finite2 (fun a b => MkC (Fin (sin a * cosh b)) (Fin (cos a * sinh b))).
Definition xccos : xcomplex -> xcomplex :=
  finite2 (fun a b => MkC (Fin (cos a * cosh b)) (Fin (- (sin a * sinh b)))).
Definition xcexp : xcomplex -> xcomplex :=
  finite2 (fun a b => MkC (Fin (exp a * cos b)) (Fin (exp a * sin b))).

(** The principal value of the arcsine of [a + b i]: with
    [s = |z + 1|] and [d = |z - 1|], the real part is
    [asin ((s - d) / 2)] and the imaginary part is
    [ln (A + sqrt (A^2 - 1))] for [A = (s + d) / 2], negated below the
    real axis. *)
Definition xcasin : xcomplex -> xcomplex :=
  finite2 (fun a b =>
    let s := sqrt ((a + 1) * (a + 1) + b * b) in
    let d := sqrt ((a - 1) * (a - 1) + b * b) in
    let A := (s + d) / 2 in
    let l := ln (A + sqrt (A * A - 1)) in
    MkC (Fin (asin ((s - d) / 2))) (Fin (if Rltb b 0 then - l else l))).

Definition xcabs (z : xcomplex) : xreal :=
  match re z, im z with
  | Fin a, Fin b => Fin (sqrt (a * a + b * b))
  | NaN, _ | _, NaN => NaN
  | _, _ => PInf
  end.

(** The mixed operators act on the components. *)
Definition xdcmul (x : xreal) (z : xcomplex) : xcomplex :=
  MkC (xmul x (re z)) (xmul x (im z)).
Definition xdcdiv (x : xreal) (z : xcomplex) : xcomplex :=
  xcdiv (MkC x (Fin 0)) z.
Definition xdcadd (x : xreal) (z : xcomplex) : xcomplex :=
  MkC (xadd x (re z)) (im z).
Definition xdcsub (x : xreal) (z : xcomplex) : xcomplex :=
  MkC (xsub x (re z)) (xneg (im z)).
Definition xcdmul (z : xcomplex) (x : xreal) : xcomplex :=
  MkC (xmul (re z) x) (xmul (im z) x).
Definition xcddiv (z : xcomplex) (x : xreal) : xcomplex :=
  MkC (xdiv (re z) x) (xdiv (im z) x).

Definition xgt (x y : xreal) : bool := xlt y x.
Definition xge (x y : xreal) : bool := xle y x.

#[export] Instance exact_arithmetic : Arithmetic := {|
  Double_t := xreal;
  complex := xcomplex;
  D_of_Z := fun z => Fin (IZR z);
  EPSILON := Fin (/ 2 ^ 52);
  inf := PInf;
  Pi := Fin PI;
  TwoPi := Fin (2 * PI);
  Dmul := xmul;
  Ddiv := xdiv;
  Dabs := xabs;
  Dlt := xlt;
  Dle := xle;
  Dgt := xgt;
  Dge := xge;
  Cmake := MkC;
  real := re;
  imag := im;
  Cadd := xcadd;
  Csub := xcsub;
  Cmul := xcmul;
  Cdiv := xcdiv;
  Cneg := xcneg;
  Cconj := xcconj;
  Csin := xcsin;
  Ccos := xccos;
  Casin := xcasin;
  Cexp := xcexp;
  Cabs := xcabs;
  DCmul := xdcmul;
  DCdiv := xdcdiv;
  DCadd := xdcadd;
  DCsub := xdcsub;
  CDmul := xcdmul;
  CDdiv := xcddiv
|}.

(** A real number as a complex one. *)
Definition rc (a : R) : xcomplex := MkC (Fin a) (Fin 0).

(** A dispersion model with a constant real index. *)
Definition constant_index (n : R) : ARefractiveIndex :=
  MkRefractiveIndex (fun _ => rc n).

Definition air : ARefractiveIndex := constant_index 1.
Definition glass : ARefractiveIndex := constant_index (3 / 2).
Definition MgF2 : ARefractiveIndex := constant_index (69 / 50).

(** Scenario 1 of the spec: air over glass. *)
Definition air_glass : AMultilayer := build air glass [].

(** Scenario 2 of the spec: air, 100 nm of MgF2, glass. *)
Definition coated_glass : AMultilayer := build air glass [(MgF2, Fin 100)].

(** Aluminium at 500 nm, as in scenario 4 of the spec. *)
Definition n_Al : xcomplex := MkC (Fin (77 / 100)) (Fin (297 / 50)).
Definition aluminium : ARefractiveIndex := MkRefractiveIndex (fun _ => n_Al).

(** Air, 1000 nm of aluminium, glass: the film is opaque. *)
Definition opaque_film : AMultilayer :=
  build air glass [(aluminium, Fin 1000)].

(** Glass over air, for total internal reflection. *)
Definition glass_air : AMultilayer := build glass air [].

(** The imaginary part of the Snell angle in air when
    [n_0 sin th_0 = 3/2]. *)
Definition L_air : R := ln (3 / 2 + sqrt (5 / 4)).

(** A stack of two layers with constant real indices. *)
Definition two_layer (n0 n1 : R) : AMultilayer :=
  build (constant_index n0) (constant_index n1) [].

(** The imaginary part of the principal arcsine of a real [x >= 1]. *)
Definition evanescent (x : R) : R := ln (x + sqrt (x * x - 1)).

(** A film of constant real index [n1] and thickness [d] between two
    media of constant real indices [n0] and [n2]. *)
Definition single_film (n0 n1 d n2 : R) : AMultilayer :=
  build (constant_index n0) (constant_index n2) [(constant_index n1, Fin d)].



End Exact.

(** * Properties *)

(** ** Loops over vectors *)

Section Loops.

Context {A : Type}.

Lemma for_loop_push_back (f : nat -> A) (lo n : nat) (l : list A) :
  for_loop lo n (fun i acc => push_back acc (f i)) l = l ++ map f (seq lo n).
Proof.
  revert lo l. induction n as [|n IH]; intros lo l; simpl.
  - by rewrite app_nil_r.
  - rewrite IH. unfold push_back. by rewrite <- app_assoc.
Qed.

Lemma lookup_total_map_seq `{Inhabited A} (f : nat -> A) (lo n i : nat) :
  i < n -> map f (seq lo n) !!! i = f (lo + i)%nat.
Proof.
  revert lo i. induction n as [|n IH]; intros lo i Hi; [lia|].
  destruct i as [|i]; cbn [map seq].
  - by rewrite Nat.add_0_r.
  - rewrite lookup_total_cons_ne_0 by lia. cbn [Nat.pred].
    rewrite IH by lia. f_equal. lia.
Qed.

Lemma for_loop_insert_length (f : nat -> A) (lo n : nat) (l : list A) :
  length (for_loop lo n (fun i acc => <[i := f i]> acc) l) = length l.
Proof.
  revert lo l. induction n as [|n IH]; intros lo l; simpl; [done|].
  by rewrite IH, length_insert.
Qed.

Lemma for_loop_insert_lookup (f : nat -> A) (lo n : nat) (l : list A) (i : nat) :
  for_loop lo n (fun i acc => <[i := f i]> acc) l !! i =
  if decide (lo <= i < lo + n) then (fun _ => f i) <$> l !! i else l !! i.
Proof.
  revert lo l. induction n as [|n IH]; intros lo l; simpl.
  - case_decide; [lia|done].
  - rewrite IH. destruct (decide (i = lo)) as [->|Hne].
    + repeat case_decide; try lia.
      destruct (decide (lo < length l)) as [Hlt|Hge].
      * rewrite list_lookup_insert_eq by done.
        destruct (l !! lo) eqn:E; [done|].
        apply lookup_ge_None in E. lia.
      * rewrite (proj2 (lookup_ge_None _ _)) by (rewrite length_insert; lia).
        by rewrite (proj2 (lookup_ge_None l lo)) by lia.
    + rewrite list_lookup_insert_ne by done.
      repeat case_decide; try lia; done.
Qed.

Lemma for_loop_insert_lookup_total `{Inhabited A} (f : nat -> A)
    (lo n : nat) (l : list A) (i : nat) :
  lo <= i < lo + n -> i < length l ->
  for_loop lo n (fun i acc => <[i := f i]> acc) l !!! i = f i.
Proof.
  intros Hin Hlen. apply list_lookup_total_correct.
  rewrite for_loop_insert_lookup. case_decide; [|lia].
  destruct (lookup_lt_is_Some_2 l i Hlen) as [x ->]. done.
Qed.

Lemma for_loop_insert_lookup_total_out `{Inhabited A} (f : nat -> A)
    (lo n : nat) (l : list A) (i : nat) :
  ~ lo <= i < lo + n ->
  for_loop lo n (fun i acc => <[i := f i]> acc) l !!! i = l !!! i.
Proof.
  intros Hout. rewrite !list_lookup_total_alt, for_loop_insert_lookup.
  by case_decide.
Qed.

Lemma for_loop_fold {B} (op : B -> A -> B) (g : nat -> A) (lo n : nat) (b : B) :
  for_loop lo n (fun i acc => op acc (g i)) b = fold_left op (map g (seq lo n)) b.
Proof.
  revert lo b. induction n as [|n IH]; intros lo b; simpl; [done|apply IH].
Qed.

(** A loop that rewrites entry [i] from its own old value when [c] holds
    of it, as the opacity loop does. *)
Lemma for_loop_update_length (c : A -> bool) (g : A -> A) `{Inhabited A}
    (lo n : nat) (l : list A) :
  length (for_loop lo n (fun i acc =>
            if c (acc !!! i) then <[i := g (acc !!! i)]> acc else acc) l) =
  length l.
Proof.
  revert lo l. induction n as [|n IH]; intros lo l; simpl; [done|].
  rewrite IH. destruct (c _); [apply length_insert|done].
Qed.

Lemma for_loop_update_lookup (c : A -> bool) (g : A -> A) `{Inhabited A}
    (lo n : nat) (l : list A) (i : nat) :
  i < length l ->
  for_loop lo n (fun i acc =>
    if c (acc !!! i) then <[i := g (acc !!! i)]> acc else acc) l !!! i =
  if decide (lo <= i < lo + n)
  then (if c (l !!! i) then g (l !!! i) else l !!! i)
  else l !!! i.
Proof.
  revert lo l. induction n as [|n IH]; intros lo l Hlen; simpl.
  - case_decide; [lia|done].
  - rewrite IH by (destruct (c _); [rewrite length_insert|]; done).
    destruct (decide (i = lo)) as [->|Hne].
    + repeat case_decide; try lia.
      destruct (c (l !!! lo)); [|done].
      by rewrite list_lookup_total_insert_eq.
    + assert (Hsame : (if c (l !!! lo) then <[lo := g (l !!! lo)]> l else l)
                        !!! i = l !!! i).
      { destruct (c (l !!! lo)); [|done].
        by rewrite list_lookup_total_insert_ne. }
      rewrite Hsame. repeat case_decide; try lia; done.
Qed.

End Loops.

Section StackProperties.

Context {AR : Arithmetic}.

Lemma insert_before_end_snoc {A} (l : list A) (b x : A) :
  insert_before_end (l ++ [b]) x = l ++ [x; b].
Proof.
  unfold insert_before_end. rewrite length_app. simpl.
  replace (length l + 1 - 1)%nat with (length l) by lia.
  rewrite take_app_length, drop_app_length. done.
Qed.

Lemma InsertLayer_snoc (ns : list ARefractiveIndex) (nb idx : ARefractiveIndex)
    (ds : list Double_t) (db d : Double_t) :
  InsertLayer (MkMultilayer (ns ++ [nb]) (ds ++ [db])) idx d =
  MkMultilayer (ns ++ [idx; nb]) (ds ++ [d; db]).
Proof. unfold InsertLayer. simpl. by rewrite !insert_before_end_snoc. Qed.

Lemma insert_layers_lists (ins : list (ARefractiveIndex * Double_t))
    (ns : list ARefractiveIndex) (nb : ARefractiveIndex)
    (ds : list Double_t) (db : Double_t) :
  fold_left (fun s l => InsertLayer s (fst l) (snd l)) ins
            (MkMultilayer (ns ++ [nb]) (ds ++ [db])) =
  MkMultilayer (ns ++ map fst ins ++ [nb]) (ds ++ map snd ins ++ [db]).
Proof.
  revert ns ds. induction ins as [|[idx d] ins IH]; intros ns ds; simpl.
  - done.
  - rewrite InsertLayer_snoc.
    change (ns ++ [idx; nb]) with (ns ++ [idx] ++ [nb]).
    change (ds ++ [d; db]) with (ds ++ [d] ++ [db]).
    rewrite !app_assoc. rewrite IH. by rewrite <- !app_assoc.
Qed.

(** The two vectors of a stack built by the constructor and a sequence of
    insertions. *)
Lemma build_lists (top bottom : ARefractiveIndex)
    (ins : list (ARefractiveIndex * Double_t)) :
  build top bottom ins =
  MkMultilayer (top :: map fst ins ++ [bottom]) (inf :: map snd ins ++ [inf]).
Proof.
  unfold build.
  change (AMultilayer_new top bottom)
    with (MkMultilayer ([top] ++ [bottom]) ([inf] ++ [inf])).
  by rewrite insert_layers_lists.
Qed.

Lemma lookup_total_back {A} `{Inhabited A} (x b : A) (l : list A) :
  (x :: l ++ [b]) !!! (length (x :: l ++ [b]) - 1)%nat = b.
Proof.
  rewrite app_comm_cons, length_app. simpl length.
  replace (S (length l) + 1 - 1)%nat with (length (x :: l)) by (simpl; lia).
  by rewrite list_lookup_total_middle.
Qed.

Lemma lookup_total_before_back {A} `{Inhabited A} (x y b : A) (l : list A) :
  (x :: l ++ [y; b]) !!! (length (x :: l ++ [b]) - 1)%nat = y.
Proof.
  rewrite !app_comm_cons, length_app. simpl length.
  replace (S (length l) + 1 - 1)%nat with (length (x :: l)) by (simpl; lia).
  by rewrite list_lookup_total_middle.
Qed.

(** C9.  The constructor yields exactly [top; bottom], both of thickness
    [inf]; [InsertLayer] puts the new layer immediately before the last
    element; and after the constructor and any sequence of insertions the
    stack has at least two layers, as many thicknesses as indices, the
    original top at position 0 and the original bottom at position N-1,
    both still of thickness [inf]. *)
Theorem stack_structure_invariant (top bottom : ARefractiveIndex)
    (ins : list (ARefractiveIndex * Double_t)) :
  AMultilayer_new top bottom = MkMultilayer [top; bottom] [inf; inf] /\
  (forall ns nb ds db idx d,
     InsertLayer (MkMultilayer (ns ++ [nb]) (ds ++ [db])) idx d =
     MkMultilayer (ns ++ [idx; nb]) (ds ++ [d; db])) /\
  let s := build top bottom ins in
  let N := num_layers s in
  2 <= N /\
  length (fThicknessList s) = N /\
  fRefractiveIndexList s !!! 0%nat = top /\
  fRefractiveIndexList s !!! (N - 1)%nat = bottom /\
  fThicknessList s !!! 0%nat = inf /\
  fThicknessList s !!! (N - 1)%nat = inf.
Proof.
  split; [reflexivity|]. split; [intros; apply InsertLayer_snoc|].
  cbv zeta. rewrite build_lists. unfold num_layers.
  cbn [fRefractiveIndexList fThicknessList].
  assert (Hlen : length (inf :: map snd ins ++ [inf]) =
                 length (top :: map fst ins ++ [bottom])).
  { simpl. by rewrite !length_app, !length_map. }
  repeat split.
  - simpl. rewrite length_app. simpl. lia.
  - done.
  - apply lookup_total_back.
  - rewrite <- Hlen. apply lookup_total_back.
Qed.

(** C10.  [InsertLayer] never inspects its arguments: on a stack built by
    the constructor and any insertions, for every index model and every
    [Double_t] thickness whatsoever, the call returns the stack with the
    pair stored unchanged at position N-1, just above the bottom layer. *)
Theorem InsertLayer_no_validation (top bottom : ARefractiveIndex)
    (ins : list (ARefractiveIndex * Double_t))
    (idx : ARefractiveIndex) (thickness : Double_t) :
  let s := build top bottom ins in
  let s' := InsertLayer s idx thickness in
  let N := num_layers s in
  s' = MkMultilayer (top :: map fst ins ++ [idx; bottom])
                    (inf :: map snd ins ++ [thickness; inf]) /\
  num_layers s' = (N + 1)%nat /\
  fRefractiveIndexList s' !!! (N - 1)%nat = idx /\
  fThicknessList s' !!! (N - 1)%nat = thickness.
Proof.
  cbv zeta. rewrite build_lists.
  rewrite !app_comm_cons, InsertLayer_snoc, <- !app_comm_cons.
  unfold num_layers. cbn [fRefractiveIndexList fThicknessList].
  assert (Hlen : length (top :: map fst ins ++ [bottom]) =
                 length (inf :: map snd ins ++ [inf])).
  { simpl. by rewrite !length_app, !length_map. }
  repeat split.
  - simpl. rewrite !length_app. simpl. lia.
  - apply lookup_total_before_back.
  - rewrite Hlen. apply lookup_total_before_back.
Qed.

End StackProperties.

(** ** Running the state monad *)

Section Runs.

Context {AR : Arithmetic}.

Lemma run_ret {A} (a : A) (l : bool) (e : list Message) :
  run_with (ret a) (MkWorld l e) a l [].
Proof. unfold run_with, ret. simpl. by rewrite app_nil_r. Qed.

Lemma run_bind {A B} (m : M A) (f : A -> M B) (l : bool) (e : list Message)
    (a : A) (b : B) (l1 l2 : bool) (e1 e2 : list Message) :
  run_with m (MkWorld l e) a l1 e1 ->
  run_with (f a) (MkWorld l1 (e ++ e1)) b l2 e2 ->
  run_with (bind m f) (MkWorld l e) b l2 (e1 ++ e2).
Proof.
  unfold run_with, bind. simpl. intros -> ->. by rewrite app_assoc.
Qed.

Lemma run_Error (msg : Message) (l : bool) (e : list Message) :
  run_with (Error msg) (MkWorld l e) tt l [msg].
Proof. reflexivity. Qed.

Lemma run_when (c : bool) (msg : Message) (l : bool) (e : list Message) :
  run_with (when c (Error msg)) (MkWorld l e) tt l (if c then [msg] else []).
Proof. destruct c; [apply run_Error | apply run_ret]. Qed.

Lemma run_with_printed {A} (m : M A) (w : World) a l e :
  run_with m w a l e -> printed m w = e.
Proof.
  unfold run_with, printed. intros ->. simpl. by rewrite drop_app_length.
Qed.

Lemma run_with_fst {A} (m : M A) (w : World) a l e :
  run_with m w a l e -> fst (m w) = a.
Proof. unfold run_with. by intros ->. Qed.

Lemma Forall_when (P : Message -> Prop) (c : bool) (msg : Message) :
  P msg -> Forall P (if c then [msg] else []).
Proof. destruct c; auto. Qed.

Lemma IsForwardAngle_run (n theta : complex) (w : World) :
  exists extra,
    run_with (IsForwardAngle n theta) w (IsForwardAngle_answer n theta)
             (opacity_warning w) extra /\
    Forall is_angle_msg extra.
Proof.
  destruct w as [l e]. simpl.
  unfold IsForwardAngle, IsForwardAngle_answer. cbv zeta.
  set (ans := if Dgt _ _ then _ else _).
  destruct ans; eexists; (split;
    [ eapply run_bind; [apply run_when|];
      eapply run_bind;
        [ eapply run_bind; [apply run_when|];
          eapply run_bind; [apply run_when|]; apply run_when
        | apply run_ret ]
    | repeat (apply Forall_app; split); auto using Forall_when, Forall_nil;
      apply Forall_when; exact I ]).
Qed.

Lemma ListSnell_run (self : AMultilayer) (th_0 : complex)
    (n_list th_list : list complex) (w : World) :
  exists extra,
    run_with (ListSnell self th_0 n_list th_list) w
             (ListSnell_value self th_0 n_list th_list)
             (opacity_warning w) extra /\
    Forall is_angle_msg extra.
Proof.
  destruct w as [l e]. simpl.
  unfold ListSnell, ListSnell_value. cbv zeta.
  set (th1 := for_loop _ _ _ _).
  destruct (IsForwardAngle_run (n_list !!! 0%nat) (th1 !!! 0%nat)
              (MkWorld l e)) as (e1 & H1 & F1). simpl in H1.
  set (th2 := if negb (IsForwardAngle_answer _ _) then _ else th1).
  destruct (IsForwardAngle_run (back n_list) (back th2)
              (MkWorld l (e ++ e1))) as (e2 & H2 & F2). simpl in H2.
  exists (e1 ++ e2 ++ []). split.
  - eapply run_bind; [exact H1|].
    eapply run_bind; [exact H2|]. apply run_ret.
  - rewrite app_nil_r. by apply Forall_app.
Qed.

Lemma input_tests_run (n_list : list complex) (th_0 : complex) (w : World) :
  exists extra,
    run_with (input_tests n_list th_0) w tt (opacity_warning w)
      (extra ++ if input_test_fails n_list th_0 then [MsgInput] else []) /\
    Forall is_angle_msg extra.
Proof.
  destruct w as [l e]. simpl. unfold input_tests, input_test_fails.
  destruct (Dge _ _); simpl.
  - exists []. split; [|constructor].
    eapply run_bind; [apply run_ret|]. apply (run_when true).
  - destruct (IsForwardAngle_run (n_list !!! 0%nat) th_0 (MkWorld l e))
      as (e1 & H1 & F1). simpl in H1.
    exists e1. split; [|done].
    eapply run_bind; [|apply run_when].
    rewrite <- (app_nil_r e1).
    eapply run_bind; [exact H1|]. apply run_ret.
Qed.

Lemma clamp_opaque_run (num_layers : nat) (delta : list complex) (w : World) :
  exists l' extra,
    run_with (clamp_opaque num_layers delta) w (clamp_value num_layers delta)
             l' extra /\
    latch_step (opacity_warning w) l' extra.
Proof.
  destruct w as [l e]. simpl. unfold clamp_opaque, clamp_value.
  generalize (num_layers - 1 - 1)%nat as n. generalize 1%nat as lo.
  intros lo n. revert lo delta l e.
  induction n as [|n IH]; intros lo delta l e; simpl.
  - exists l, []. split; [apply run_ret | by left].
  - destruct (Dgt (imag (delta !!! lo)) (D_of_Z 35)).
    + set (delta' := <[lo := _]> delta).
      destruct l.
      * destruct (IH (S lo) delta' true e) as (l' & ex & Hr & Hs).
        exists l', ex. split; [|done].
        rewrite <- (app_nil_l ex).
        eapply run_bind; [|rewrite app_nil_r; exact Hr].
        unfold run_with. simpl. by rewrite app_nil_r.
      * destruct (IH (S lo) delta' true (e ++ [MsgOpacity]))
          as (l' & ex & Hr & Hs).
        destruct Hs as [[-> ->]|[? _]]; [|done].
        exists true, [MsgOpacity]. split; [|right; done].
        rewrite <- (app_nil_r [MsgOpacity]).
        eapply run_bind; [|exact Hr].
        reflexivity.
    + destruct (IH (S lo) delta l e) as (l' & ex & Hr & Hs).
      exists l', ex. split; [|done].
      rewrite <- (app_nil_l ex).
      eapply run_bind; [apply run_ret|]. rewrite app_nil_r. exact Hr.
Qed.

Lemma CoherentTMM_locals_run (self : AMultilayer) (pol : EPolarization)
    (th_0 : complex) (lam_vac : Double_t) (w : World) :
  exists l' e1 e2 e3,
    run_with (CoherentTMM_locals self pol th_0 lam_vac) w
             (CoherentTMM_value self pol th_0 lam_vac) l'
             ((e1 ++ if input_test_fails (n_list_of self lam_vac) th_0
                     then [MsgInput] else []) ++ e2 ++ e3) /\
    Forall is_angle_msg e1 /\ Forall is_angle_msg e2 /\
    latch_step (opacity_warning w) l' e3.
Proof.
  destruct w as [l e]. simpl. unfold CoherentTMM_locals, CoherentTMM_value.
  cbv zeta. set (n_list := n_list_of self lam_vac).
  destruct (input_tests_run n_list th_0 (MkWorld l e)) as (e1 & H1 & F1).
  simpl in H1.
  set (e1' := e1 ++ _) in H1.
  destruct (ListSnell_run self th_0 n_list [] (MkWorld l (e ++ e1')))
    as (e2 & H2 & F2). simpl in H2.
  set (th_list := ListSnell_value self th_0 n_list []) in *.
  set (delta := delta_of _ _ _).
  destruct (clamp_opaque_run (length (fRefractiveIndexList self)) delta
              (MkWorld l ((e ++ e1') ++ e2))) as (l' & e3 & H3 & S3).
  simpl in H3, S3.
  exists l', e1, e2, e3. repeat split; try done.
  eapply run_bind; [exact H1|].
  eapply run_bind; [exact H2|].
  rewrite <- (app_nil_r e3).
  eapply run_bind; [exact H3|]. apply run_ret.
Qed.

Lemma CoherentTMM_run (self : AMultilayer) (pol : EPolarization)
    (th_0 : complex) (lam_vac : Double_t) (w : World) :
  exists l' e1 e2 e3,
    run_with (CoherentTMM self pol th_0 lam_vac) w
      (MkOutputs
         (Some (L_reflectance (CoherentTMM_value self pol th_0 lam_vac)))
         (Some (L_transmittance (CoherentTMM_value self pol th_0 lam_vac))))
      l'
      ((e1 ++ if input_test_fails (n_list_of self lam_vac) th_0
              then [MsgInput] else []) ++ e2 ++ e3) /\
    Forall is_angle_msg e1 /\ Forall is_angle_msg e2 /\
    latch_step (opacity_warning w) l' e3.
Proof.
  destruct (CoherentTMM_locals_run self pol th_0 lam_vac w)
    as (l' & e1 & e2 & e3 & H & F1 & F2 & S3).
  exists l', e1, e2, e3. repeat split; try done.
  destruct w as [l e]. unfold CoherentTMM.
  rewrite <- (app_nil_r (_ ++ e2 ++ e3)).
  eapply run_bind; [exact H|]. apply run_ret.
Qed.

End Runs.

(** ** The solver *)

Section SolverProperties.

Context {AR : Arithmetic}.

(** C5.  Whatever the state of the process and whatever it prints,
    [IsForwardAngle n theta] returns [true] if and only if the spec's
    criterion holds: Im(n cos theta) > 0 when |Im(n cos theta)| exceeds
    100 eps, and Re(n cos theta) > 0 otherwise. *)
Theorem IsForwardAngle_iff_spec (n theta : complex) (w : World) :
  fst (IsForwardAngle n theta w) = true <-> spec_forward n theta.
Proof.
  destruct (IsForwardAngle_run n theta w) as (extra & Hrun & _).
  rewrite (run_with_fst _ _ _ _ _ Hrun).
  unfold IsForwardAngle_answer, spec_forward. cbv zeta.
  destruct (Dgt (Dabs _) _); reflexivity.
Qed.

Lemma ListSnell_fst (self : AMultilayer) (th_0 : complex)
    (n_list th_list : list complex) (w : World) :
  fst (ListSnell self th_0 n_list th_list w) =
  ListSnell_value self th_0 n_list th_list.
Proof.
  destruct (ListSnell_run self th_0 n_list th_list w) as (e & H & _).
  exact (run_with_fst _ _ _ _ _ H).
Qed.

Lemma CoherentTMM_locals_fst (self : AMultilayer) (pol : EPolarization)
    (th_0 : complex) (lam_vac : Double_t) (w : World) :
  fst (CoherentTMM_locals self pol th_0 lam_vac w) =
  CoherentTMM_value self pol th_0 lam_vac.
Proof.
  destruct (CoherentTMM_locals_run self pol th_0 lam_vac w)
    as (l' & e1 & e2 & e3 & H & _).
  exact (run_with_fst _ _ _ _ _ H).
Qed.

(** The angles [ListSnell] computes, before and after the correction of
    the two ends. *)
Lemma ListSnell_value_lookup (self : AMultilayer) (th_0 : complex)
    (n_list : list complex) :
  let N := num_layers self in
  let angle i :=
    Casin (Cdiv (Cmul (n_list !!! 0%nat) (Csin th_0)) (n_list !!! i)) in
  let corrected n th :=
    if IsForwardAngle_answer n th then th else DCsub Pi th in
  let th_list := ListSnell_value self th_0 n_list [] in
  2 <= N ->
  length th_list = N /\
  th_list !!! 0%nat = corrected (n_list !!! 0%nat) (angle 0%nat) /\
  th_list !!! (N - 1)%nat = corrected (back n_list) (angle (N - 1)%nat) /\
  forall i, 0 < i < N - 1 -> th_list !!! i = angle i.
Proof.
  intros N angle corrected th_list HN. subst th_list.
  unfold ListSnell_value. cbv zeta.
  change (length (fRefractiveIndexList self)) with N.
  change (for_loop 0 N _ [])
    with (for_loop 0 N (fun i acc => push_back acc (angle i)) []).
  rewrite (for_loop_push_back angle 0 N []). rewrite app_nil_l.
  set (th1 := map angle (seq 0 N)).
  assert (Hlen1 : length th1 = N) by (unfold th1; by rewrite length_map, length_seq).
  assert (Hth1 : forall i, i < N -> th1 !!! i = angle i).
  { intros i Hi. unfold th1. by rewrite lookup_total_map_seq. }
  rewrite (Hth1 0%nat) by lia.
  remember (if negb (IsForwardAngle_answer (n_list !!! 0%nat) (angle 0%nat))
            then set_front (DCsub Pi (front th1)) th1 else th1)
    as th2 eqn:Hth2.
  assert (Hlen2 : length th2 = N).
  { rewrite Hth2. destruct (negb _); [unfold set_front; by rewrite length_insert|done]. }
  assert (H20 : th2 !!! 0%nat = corrected (n_list !!! 0%nat) (angle 0%nat)).
  { rewrite Hth2. unfold corrected.
    destruct (IsForwardAngle_answer _ _); simpl; [apply Hth1; lia|].
    unfold set_front, front. rewrite list_lookup_total_insert_eq by lia.
    by rewrite Hth1 by lia. }
  assert (H2i : forall i, 0 < i < N -> th2 !!! i = angle i).
  { intros i Hi. rewrite Hth2. destruct (negb _); [|apply Hth1; lia].
    unfold set_front. rewrite list_lookup_total_insert_ne by lia.
    apply Hth1; lia. }
  clear Hth2.
  assert (Hback : back th2 = angle (N - 1)%nat).
  { unfold back. rewrite Hlen2. apply H2i. lia. }
  rewrite Hback.
  destruct (IsForwardAngle_answer (back n_list) (angle (N - 1)%nat)) eqn:E;
    simpl.
  - repeat split; try done.
    + unfold corrected. rewrite E. apply H2i. lia.
    + intros i Hi. apply H2i. lia.
  - unfold set_back. rewrite length_insert, Hlen2. repeat split.
    + rewrite list_lookup_total_insert_ne by lia. done.
    + rewrite list_lookup_total_insert_eq by lia.
      unfold corrected. by rewrite E.
    + intros i Hi. rewrite list_lookup_total_insert_ne by lia.
      apply H2i. lia.
Qed.

(** C6.  With [angle i = asin (n_0 sin th_0 / n_i)] (the principal
    arcsine of the library), the vector [ListSnell] returns has one entry
    per layer; the first is [angle 0] and the last is [angle (N-1)], each
    replaced by [Pi - angle] exactly when [IsForwardAngle] answers no for
    that layer, and every interior entry is [angle i] unmodified. *)
Theorem ListSnell_angles (self : AMultilayer) (th_0 : complex)
    (n_list : list complex) (w : World) :
  2 <= num_layers self ->
  length n_list = num_layers self ->
  let N := num_layers self in
  let angle i :=
    Casin (Cdiv (Cmul (n_list !!! 0%nat) (Csin th_0)) (n_list !!! i)) in
  let corrected n th :=
    if fst (IsForwardAngle n th w) then th else DCsub Pi th in
  let th_list := fst (ListSnell self th_0 n_list [] w) in
  length th_list = N /\
  th_list !!! 0%nat = corrected (n_list !!! 0%nat) (angle 0%nat) /\
  th_list !!! (N - 1)%nat =
    corrected (n_list !!! (N - 1)%nat) (angle (N - 1)%nat) /\
  (forall i, 0 < i < N - 1 -> th_list !!! i = angle i) /\
  (forall n th w', fst (IsForwardAngle n th w') = fst (IsForwardAngle n th w)).
Proof.
  intros HN Hlen N angle corrected th_list.
  assert (Hans : forall n th w', fst (IsForwardAngle n th w') =
                                 IsForwardAngle_answer n th).
  { intros n th w'. destruct (IsForwardAngle_run n th w') as (e & H & _).
    exact (run_with_fst _ _ _ _ _ H). }
  subst th_list corrected. cbv beta. rewrite ListSnell_fst, !Hans.
  destruct (ListSnell_value_lookup self th_0 n_list HN)
    as (H1 & H2 & H3 & H4).
  unfold back in H3. rewrite Hlen in H3.
  repeat split; try done.
  intros n th w'. by rewrite !Hans.
Qed.

(** The two Fresnel loops, one vector at a time. *)
Lemma fresnel_loop_unzip (pol : EPolarization) (n_list th_list : list complex)
    (k lo : nat) (a b : list complex) :
  for_loop lo k (fun i tr =>
    let cosi := Ccos (th_list !!! i) in
    let cosf := Ccos (th_list !!! (i + 1)%nat) in
    let ii := Cmul (n_list !!! i) cosi in
    match pol with
    | kS =>
        let ff := Cmul (n_list !!! (i + 1)%nat) cosf in
        (<[i := Cdiv (DCmul (D_of_Z 2) ii) (Cadd ii ff)]> (fst tr),
         <[i := Cdiv (Csub ii ff) (Cadd ii ff)]> (snd tr))
    | kP =>
        let fi := Cmul (n_list !!! (i + 1)%nat) cosi in
        let if_ := Cmul (n_list !!! i) cosf in
        (<[i := Cdiv (DCmul (D_of_Z 2) ii) (Cadd fi if_)]> (fst tr),
         <[i := Cdiv (Csub fi if_) (Cadd fi if_)]> (snd tr))
    end) (a, b) =
  (for_loop lo k (fun i acc => <[i := fresnel_t pol n_list th_list i]> acc) a,
   for_loop lo k (fun i acc => <[i := fresnel_r pol n_list th_list i]> acc) b).
Proof.
  revert lo a b.
  induction k as [|k IH]; intros lo a b; cbn [for_loop]; [done|].
  rewrite <- IH. f_equal. unfold fresnel_t, fresnel_r. by destruct pol.
Qed.

Lemma fresnel_unzip (N : nat) (pol : EPolarization)
    (n_list th_list : list complex) :
  fresnel N pol n_list th_list =
  (for_loop 0 (N - 1)
     (fun i acc => <[i := fresnel_t pol n_list th_list i]> acc)
     (replicate N (C_of_Z 0)),
   for_loop 0 (N - 1)
     (fun i acc => <[i := fresnel_r pol n_list th_list i]> acc)
     (replicate N (C_of_Z 0))).
Proof. unfold fresnel. apply fresnel_loop_unzip. Qed.

Lemma fresnel_lookup (N : nat) (pol : EPolarization)
    (n_list th_list : list complex) (i : nat) :
  i + 1 < N ->
  fst (fresnel N pol n_list th_list) !!! i = fresnel_t pol n_list th_list i /\
  snd (fresnel N pol n_list th_list) !!! i = fresnel_r pol n_list th_list i.
Proof.
  intros Hi. rewrite fresnel_unzip. cbn [fst snd].
  rewrite !for_loop_insert_lookup_total by (rewrite ?length_replicate; lia).
  done.
Qed.

(** C7.  For every adjacent pair of layers [(i, i+1)], the entries
    [t_list[i]] and [r_list[i]] the solver holds when it returns are the
    Fresnel amplitudes of the spec, for S- and for P-polarization, written
    with the cosines of the angles of [th_list]. *)
Theorem fresnel_amplitudes (self : AMultilayer) (pol : EPolarization)
    (th_0 : complex) (lam_vac : Double_t) (w : World) (i : nat) :
  i + 1 < num_layers self ->
  let L := fst (CoherentTMM_locals self pol th_0 lam_vac w) in
  let n k := L_n_list L !!! k in
  let c k := Ccos (L_th_list L !!! k) in
  let t_i := L_t_list L !!! i in
  let r_i := L_r_list L !!! i in
  match pol with
  | kS =>
      t_i = Cdiv (DCmul (D_of_Z 2) (Cmul (n i) (c i)))
                 (Cadd (Cmul (n i) (c i))
                       (Cmul (n (i + 1)%nat) (c (i + 1)%nat))) /\
      r_i = Cdiv (Csub (Cmul (n i) (c i))
                       (Cmul (n (i + 1)%nat) (c (i + 1)%nat)))
                 (Cadd (Cmul (n i) (c i))
                       (Cmul (n (i + 1)%nat) (c (i + 1)%nat)))
  | kP =>
      t_i = Cdiv (DCmul (D_of_Z 2) (Cmul (n i) (c i)))
                 (Cadd (Cmul (n (i + 1)%nat) (c i))
                       (Cmul (n i) (c (i + 1)%nat))) /\
      r_i = Cdiv (Csub (Cmul (n (i + 1)%nat) (c i))
                       (Cmul (n i) (c (i + 1)%nat)))
                 (Cadd (Cmul (n (i + 1)%nat) (c i))
                       (Cmul (n i) (c (i + 1)%nat)))
  end.
Proof.
  intros Hi L n c t_i r_i. subst t_i r_i n c L.
  rewrite CoherentTMM_locals_fst.
  unfold CoherentTMM_value, amplitudes_and_power. cbv zeta.
  cbn [L_n_list L_th_list L_t_list L_r_list].
  unfold num_layers in Hi.
  destruct (fresnel_lookup (length (fRefractiveIndexList self)) pol
              (n_list_of self lam_vac)
              (ListSnell_value self th_0 (n_list_of self lam_vac) []) i)
    as [-> ->]; [lia|].
  unfold fresnel_t, fresnel_r. by destruct pol.
Qed.

Lemma M_list_of_eq (N : nat) (t_list r_list delta : list complex) :
  M_list_of N t_list r_list delta =
  MkMatrix (C_of_Z 0) (C_of_Z 0) (C_of_Z 0) (C_of_Z 0)
  :: map (fun i => layer_matrix (t_list !!! i) (r_list !!! i) (delta !!! i))
         (seq 1 (N - 1 - 1))
  ++ [MkMatrix (C_of_Z 0) (C_of_Z 0) (C_of_Z 0) (C_of_Z 0)].
Proof.
  unfold M_list_of. cbv zeta.
  change (for_loop 1 (N - 1 - 1) _ (push_back [] ?z))
    with (for_loop 1 (N - 1 - 1)
            (fun i acc => push_back acc
               (layer_matrix (t_list !!! i) (r_list !!! i) (delta !!! i)))
            (push_back [] z)).
  rewrite for_loop_push_back. unfold push_back. done.
Qed.

Lemma M_list_of_lookup (N : nat) (t_list r_list delta : list complex) (i : nat) :
  1 <= i <= N - 2 ->
  M_list_of N t_list r_list delta !!! i =
  layer_matrix (t_list !!! i) (r_list !!! i) (delta !!! i).
Proof.
  intros Hi. rewrite M_list_of_eq.
  rewrite lookup_total_cons_ne_0 by lia.
  rewrite lookup_total_app_l by (rewrite length_map, length_seq; lia).
  rewrite lookup_total_map_seq by lia. f_equal; f_equal; lia.
Qed.

Lemma Mtilde_product_fold (N : nat) (M_list : list A2x2ComplexMatrix) :
  Mtilde_product N M_list =
  fold_left Mmul (map (fun i => M_list !!! i) (seq 1 (N - 2)))
            (MkMatrix (C_of_Z 1) (C_of_Z 0) (C_of_Z 0) (C_of_Z 1)).
Proof.
  unfold Mtilde_product. replace (N - 1 - 1)%nat with (N - 2)%nat by lia.
  apply (for_loop_fold Mmul (fun i => M_list !!! i)).
Qed.

(** C1.  For every interior layer [i] the solver stores
    [M_i = (1/t_i) * diag(exp(-j delta_i), exp(j delta_i)) * [[1 r_i][r_i 1]]];
    [Mtilde] is the left-to-right product of [M_1 ... M_(N-2)] starting
    from the identity (so the identity itself when N = 2), multiplied on
    the left by [[1 r_0][r_0 1]] scaled by 1/t_0, which the source
    computes as a division of the matrix by [t_0]; and
    [r = Mtilde_10 / Mtilde_00], [t = 1 / Mtilde_00]. *)
Theorem transfer_matrix_composition (self : AMultilayer)
    (pol : EPolarization) (th_0 : complex) (lam_vac : Double_t) (w : World) :
  2 <= num_layers self ->
  let N := num_layers self in
  let L := fst (CoherentTMM_locals self pol th_0 lam_vac w) in
  let j := Cmake (D_of_Z 0) (D_of_Z 1) in
  let t i := L_t_list L !!! i in
  let r i := L_r_list L !!! i in
  let delta i := L_delta L !!! i in
  let identity := MkMatrix (C_of_Z 1) (C_of_Z 0) (C_of_Z 0) (C_of_Z 1) in
  let M i :=
    Mmul (Mscale (DCdiv (D_of_Z 1) (t i))
            (MkMatrix (Cexp (Cmul (Cneg j) (delta i))) (C_of_Z 0)
                      (C_of_Z 0) (Cexp (Cmul j (delta i)))))
         (MkMatrix (C_of_Z 1) (r i) (r i) (C_of_Z 1)) in
  let product := fold_left Mmul (map M (seq 1 (N - 2))) identity in
  (forall i, 1 <= i <= N - 2 -> L_M_list L !!! i = M i) /\
  (N = 2%nat -> product = identity) /\
  L_Mtilde L =
    Mmul (Mdiv (MkMatrix (C_of_Z 1) (r 0%nat) (r 0%nat) (C_of_Z 1)) (t 0%nat))
         product /\
  L_r L = Cdiv (Get10 (L_Mtilde L)) (Get00 (L_Mtilde L)) /\
  L_t L = DCdiv (D_of_Z 1) (Get00 (L_Mtilde L)).
Proof.
  intros HN N L j t r delta identity M product.
  assert (HM : forall i, 1 <= i <= N - 2 -> L_M_list L !!! i = M i).
  { intros i Hi. subst L M t r delta. cbv beta.
    rewrite CoherentTMM_locals_fst.
    unfold CoherentTMM_value, amplitudes_and_power. cbv zeta.
    cbn [L_M_list L_t_list L_r_list L_delta].
    rewrite M_list_of_lookup by (unfold N, num_layers in Hi; lia).
    reflexivity. }
  split; [exact HM|]. split.
  { intros H2. subst product. by rewrite H2. }
  assert (Hprod : Mtilde_product N (L_M_list L) = product).
  { rewrite Mtilde_product_fold. subst product. f_equal.
    apply List.map_ext_in. intros i Hi. apply HM.
    apply List.in_seq in Hi. lia. }
  clearbody product. clear HM. subst L t r.
  rewrite CoherentTMM_locals_fst in Hprod |- *.
  unfold CoherentTMM_value, amplitudes_and_power in Hprod |- *.
  cbv zeta in Hprod |- *.
  cbn [L_M_list L_Mtilde L_r L_t L_t_list L_r_list] in Hprod |- *.
  change (length (fRefractiveIndexList self)) with N in Hprod |- *.
  rewrite Hprod. done.
Qed.

Lemma n_list_of_eq (self : AMultilayer) (lam_vac : Double_t) :
  n_list_of self lam_vac =
  map (fun i => GetComplexRefractiveIndex (fRefractiveIndexList self !!! i)
                                          lam_vac)
      (seq 0 (num_layers self)).
Proof. unfold n_list_of. cbv zeta. by rewrite for_loop_push_back. Qed.

Lemma n_list_of_length (self : AMultilayer) (lam_vac : Double_t) :
  length (n_list_of self lam_vac) = num_layers self.
Proof. by rewrite n_list_of_eq, length_map, length_seq. Qed.

Lemma n_list_of_lookup (self : AMultilayer) (lam_vac : Double_t) (i : nat) :
  i < num_layers self ->
  n_list_of self lam_vac !!! i =
  GetComplexRefractiveIndex (fRefractiveIndexList self !!! i) lam_vac.
Proof. intros Hi. by rewrite n_list_of_eq, lookup_total_map_seq. Qed.

Lemma delta_of_length (N : nat) (kz_list : list complex) (d : list Double_t) :
  length (delta_of N kz_list d) = N.
Proof.
  unfold delta_of.
  rewrite (for_loop_insert_length (fun i => CDmul (kz_list !!! i) (d !!! i))).
  apply length_replicate.
Qed.

Lemma delta_of_lookup (N : nat) (kz_list : list complex) (d : list Double_t)
    (i : nat) :
  i < N -> delta_of N kz_list d !!! i = CDmul (kz_list !!! i) (d !!! i).
Proof.
  intros Hi. unfold delta_of.
  by rewrite (for_loop_insert_lookup_total
                (fun i => CDmul (kz_list !!! i) (d !!! i)))
    by (rewrite ?length_replicate; lia).
Qed.

Lemma clamp_value_lookup (N : nat) (delta : list complex) (i : nat) :
  i < length delta ->
  clamp_value N delta !!! i =
  if decide (1 <= i < 1 + (N - 1 - 1))
  then (if Dgt (imag (delta !!! i)) (D_of_Z 35)
        then DCadd (real (delta !!! i)) (Cmake (D_of_Z 0) (D_of_Z 35))
        else delta !!! i)
  else delta !!! i.
Proof.
  intros Hi. unfold clamp_value.
  exact (for_loop_update_lookup
           (fun d => Dgt (imag d) (D_of_Z 35))
           (fun d => DCadd (real d) (Cmake (D_of_Z 0) (D_of_Z 35)))
           1 (N - 1 - 1) delta i Hi).
Qed.

Lemma CoherentTMM_fst (self : AMultilayer) (pol : EPolarization)
    (th_0 : complex) (lam_vac : Double_t) (w : World) :
  fst (CoherentTMM self pol th_0 lam_vac w) =
  MkOutputs (Some (L_reflectance (CoherentTMM_value self pol th_0 lam_vac)))
            (Some (L_transmittance (CoherentTMM_value self pol th_0 lam_vac))).
Proof.
  destruct (CoherentTMM_run self pol th_0 lam_vac w)
    as (l' & e1 & e2 & e3 & H & _).
  exact (run_with_fst _ _ _ _ _ H).
Qed.

(** C2.  The solve stores [R = |r| * |r|] and
    [T = |t t| * Re(n_f cos th_f) / Re(n_i cos th_i)] for S-polarization,
    [T = |t t| * Re(n_f conj(cos th_f)) / Re(n_i conj(cos th_i))] for
    P-polarization, where [n_i] and [n_f] are the indices of layers 0 and
    N-1, [th_i] is the argument [th_0] itself and [th_f] is the Snell
    angle of the last layer after its branch correction.  ([|t t|] is
    how the source computes the squared modulus of [t].) *)
Theorem power_from_amplitudes (self : AMultilayer) (pol : EPolarization)
    (th_0 : complex) (lam_vac : Double_t) (w : World) :
  2 <= num_layers self ->
  let N := num_layers self in
  let L := fst (CoherentTMM_locals self pol th_0 lam_vac w) in
  let out := fst (CoherentTMM self pol th_0 lam_vac w) in
  let n_i :=
    GetComplexRefractiveIndex (fRefractiveIndexList self !!! 0%nat) lam_vac in
  let n_f :=
    GetComplexRefractiveIndex (fRefractiveIndexList self !!! (N - 1)%nat)
                              lam_vac in
  let th_i := th_0 in
  let snell_f := Casin (Cdiv (Cmul n_i (Csin th_0)) n_f) in
  let th_f :=
    if fst (IsForwardAngle n_f snell_f w) then snell_f
    else DCsub Pi snell_f in
  let r := L_r L in
  let t := L_t L in
  reflectance out = Some (Dmul (Cabs r) (Cabs r)) /\
  transmittance out =
    Some (match pol with
          | kS => Dmul (Cabs (Cmul t t))
                       (Ddiv (real (Cmul n_f (Ccos th_f)))
                             (real (Cmul n_i (Ccos th_i))))
          | kP => Dmul (Cabs (Cmul t t))
                       (Ddiv (real (Cmul n_f (Cconj (Ccos th_f))))
                             (real (Cmul n_i (Cconj (Ccos th_i)))))
          end).
Proof.
  intros HN N L out n_i n_f th_i snell_f th_f r t.
  assert (Hn0 : n_list_of self lam_vac !!! 0%nat = n_i).
  { apply n_list_of_lookup. lia. }
  assert (Hnf : back (n_list_of self lam_vac) = n_f).
  { unfold back. rewrite n_list_of_length. apply n_list_of_lookup.
    fold N. lia. }
  assert (Hthf : back (ListSnell_value self th_0 (n_list_of self lam_vac) [])
                 = th_f).
  { destruct (ListSnell_value_lookup self th_0 (n_list_of self lam_vac) HN)
      as (Hlen & _ & Hlast & _).
    unfold back at 1. rewrite Hlen, Hlast, Hnf, Hn0.
    rewrite n_list_of_lookup by (fold N; lia). fold N n_f snell_f.
    subst th_f. destruct (IsForwardAngle_run n_f snell_f w) as (e & H & _).
    by rewrite (run_with_fst _ _ _ _ _ H). }
  subst out r t L. rewrite CoherentTMM_fst, CoherentTMM_locals_fst.
  unfold CoherentTMM_value, amplitudes_and_power. cbv zeta.
  cbn [reflectance transmittance L_reflectance L_transmittance L_r L_t].
  rewrite Hn0, Hnf, Hthf. by destruct pol.
Qed.

Lemma count_opacity_app (e1 e2 : list Message) :
  count_opacity (e1 ++ e2) = (count_opacity e1 + count_opacity e2)%nat.
Proof. unfold count_opacity. by rewrite List.filter_app, length_app. Qed.

Lemma count_opacity_angle (e : list Message) :
  Forall is_angle_msg e -> count_opacity e = 0%nat.
Proof.
  induction 1 as [|m e Hm _ IH]; [done|].
  destruct m; try done; exact IH.
Qed.

Lemma count_opacity_input (c : bool) :
  count_opacity (if c then [MsgInput] else []) = 0%nat.
Proof. by destruct c. Qed.

(** What one solve prints, counted. *)
Lemma CoherentTMM_latch (self : AMultilayer) (pol : EPolarization)
    (th_0 : complex) (lam_vac : Double_t) (w : World) :
  let w' := snd (CoherentTMM self pol th_0 lam_vac w) in
  exists extra,
    errors w' = errors w ++ extra /\
    ((opacity_warning w' = opacity_warning w /\ count_opacity extra = 0%nat) \/
     (opacity_warning w = false /\ opacity_warning w' = true /\
      count_opacity extra = 1%nat)).
Proof.
  destruct (CoherentTMM_run self pol th_0 lam_vac w)
    as (l' & e1 & e2 & e3 & H & F1 & F2 & S3).
  unfold run_with in H. rewrite H. cbn [snd errors opacity_warning].
  eexists. split; [reflexivity|].
  rewrite !count_opacity_app, count_opacity_input,
    (count_opacity_angle e1 F1), (count_opacity_angle e2 F2).
  destruct S3 as [[-> ->]|(Hl & -> & ->)]; [left|right]; done.
Qed.

Lemma CoherentTMM_latch_invariant (self : AMultilayer) (pol : EPolarization)
    (th_0 : complex) (lam_vac : Double_t) (w : World) :
  latch_invariant w ->
  latch_invariant (snd (CoherentTMM self pol th_0 lam_vac w)).
Proof.
  intros Hinv.
  destruct (CoherentTMM_latch self pol th_0 lam_vac w) as (extra & He & Hs).
  cbv zeta in He, Hs. unfold latch_invariant in *.
  rewrite He, count_opacity_app.
  destruct Hs as [[-> ->]|(Hl & -> & ->)].
  - rewrite Nat.add_0_r. done.
  - rewrite Hl in Hinv. lia.
Qed.

Lemma run_calls_latch_invariant (cs : list Call) (w : World) :
  latch_invariant w -> latch_invariant (snd (run_calls cs w)).
Proof.
  revert w. induction cs as [|c cs IH]; intros w Hinv; [done|].
  cbn [run_calls]. unfold run_call.
  pose proof (CoherentTMM_latch_invariant (call_stack c)
                (call_polarization c) (call_th_0 c) (call_lam_vac c) w Hinv)
    as H1.
  destruct (CoherentTMM _ _ _ _ w) as [o w1]. cbn [snd] in H1.
  specialize (IH w1 H1). destruct (run_calls cs w1) as [os w2]. exact IH.
Qed.

(** C8.  For an interior layer [i] the phase the solver keeps is
    [Re(delta_i) + 35 i] when [Im(delta_i) > 35] and [delta_i] itself
    otherwise, [delta_i = kz_i * d_i] being the phase just computed; the
    phases of the two semi-infinite ends are never clamped; the matrices
    are built from the clamped phases; in any sequence of solves of a
    process, started with the latch clear, the opacity warning is printed
    at most once; and the outputs of a solve do not depend on the state of
    the process, so not on the latch. *)
Theorem opacity_clamp (self : AMultilayer) (pol : EPolarization)
    (th_0 : complex) (lam_vac : Double_t) (w : World) :
  2 <= num_layers self ->
  let N := num_layers self in
  let L := fst (CoherentTMM_locals self pol th_0 lam_vac w) in
  let raw i := CDmul (L_kz_list L !!! i) (fThicknessList self !!! i) in
  (forall i, 1 <= i <= N - 2 ->
     L_delta L !!! i =
     if Dgt (imag (raw i)) (D_of_Z 35)
     then DCadd (real (raw i)) (Cmake (D_of_Z 0) (D_of_Z 35))
     else raw i) /\
  L_delta L !!! 0%nat = raw 0%nat /\
  L_delta L !!! (N - 1)%nat = raw (N - 1)%nat /\
  L_M_list L = M_list_of N (L_t_list L) (L_r_list L) (L_delta L) /\
  (forall cs : list Call,
     count_opacity (errors (snd (run_calls cs initial_world))) <= 1) /\
  (forall w' : World,
     fst (CoherentTMM self pol th_0 lam_vac w') =
     fst (CoherentTMM self pol th_0 lam_vac w)).
Proof.
  intros HN N L raw. subst raw L. rewrite CoherentTMM_locals_fst.
  unfold CoherentTMM_value, amplitudes_and_power. cbv zeta.
  cbn [L_delta L_kz_list L_M_list L_t_list L_r_list].
  change (length (fRefractiveIndexList self)) with N.
  set (kz := kz_list_of _ _ _ _).
  assert (Hlook : forall i, i < N ->
            clamp_value N (delta_of N kz (fThicknessList self)) !!! i =
            if decide (1 <= i < 1 + (N - 1 - 1))
            then (if Dgt (imag (CDmul (kz !!! i) (fThicknessList self !!! i)))
                         (D_of_Z 35)
                  then DCadd (real (CDmul (kz !!! i)
                                          (fThicknessList self !!! i)))
                             (Cmake (D_of_Z 0) (D_of_Z 35))
                  else CDmul (kz !!! i) (fThicknessList self !!! i))
            else CDmul (kz !!! i) (fThicknessList self !!! i)).
  { intros i Hi.
    rewrite clamp_value_lookup by (rewrite delta_of_length; lia).
    by rewrite delta_of_lookup by lia. }
  repeat split.
  - intros i Hi. rewrite Hlook by lia. case_decide; [done|lia].
  - rewrite Hlook by lia. case_decide; [lia|done].
  - rewrite Hlook by lia. case_decide; [lia|done].
  - intros cs.
    pose proof (run_calls_latch_invariant cs initial_world eq_refl) as Hinv.
    unfold latch_invariant in Hinv.
    destruct (opacity_warning _); lia.
  - intros w'. by rewrite !CoherentTMM_fst.
Qed.

(** C4, as the code has it.  The input test prints "Error in n0 or th0!"
    exactly when [|Im(n_0 sin th_0)| >= 100 eps] or [IsForwardAngle]
    answers no for [th_0] in layer 0, and for no other reason (the
    wavelength is not looked at); whether or not it prints, the solve goes
    on and assigns to [reflectance] and [transmittance] the values its
    last lines compute. *)
Theorem input_test_only_prints (self : AMultilayer) (pol : EPolarization)
    (th_0 : complex) (lam_vac : Double_t) (w : World) :
  2 <= num_layers self ->
  let m := CoherentTMM self pol th_0 lam_vac in
  let L := fst (CoherentTMM_locals self pol th_0 lam_vac w) in
  let n_0 :=
    GetComplexRefractiveIndex (fRefractiveIndexList self !!! 0%nat) lam_vac in
  (In MsgInput (printed m w) <->
     Dge (Dabs (imag (Cmul n_0 (Csin th_0)))) (Dmul (D_of_Z 100) EPSILON)
       = true \/
     fst (IsForwardAngle n_0 th_0 w) = false) /\
  fst (m w) = MkOutputs (Some (L_reflectance L)) (Some (L_transmittance L)).
Proof.
  intros HN m L n_0. subst m L. rewrite CoherentTMM_locals_fst.
  destruct (CoherentTMM_run self pol th_0 lam_vac w)
    as (l' & e1 & e2 & e3 & H & F1 & F2 & S3).
  rewrite (run_with_printed _ _ _ _ _ H), (run_with_fst _ _ _ _ _ H).
  split; [|reflexivity].
  assert (Hnot : forall e, Forall is_angle_msg e -> ~ In MsgInput e).
  { intros e He Hin. rewrite Forall_forall in He.
    apply list_elem_of_In in Hin. exact (He _ Hin). }
  assert (Hnot3 : ~ In MsgInput e3).
  { destruct S3 as [[_ ->]|(_ & _ & ->)]; simpl; intuition discriminate. }
  destruct (IsForwardAngle_run n_0 th_0 w) as (e & Hf & _).
  rewrite (run_with_fst _ _ _ _ _ Hf).
  unfold input_test_fails. rewrite n_list_of_lookup by lia. fold n_0.
  rewrite !in_app_iff.
  pose proof (Hnot e1 F1) as Hnot1. pose proof (Hnot e2 F2) as Hnot2.
  clear Hnot H Hf.
  destruct (Dge _ _); destruct (IsForwardAngle_answer n_0 th_0); simpl;
    split; intros Hx; try tauto;
    destruct Hx as [?|?]; discriminate.
Qed.

End SolverProperties.

(** ** Concrete runs in exact arithmetic *)

Module ExactRuns.

Import Exact.
Local Open Scope R_scope.

Lemma Rltb_true (a b : R) : a < b -> Rltb a b = true.
Proof. intros H. unfold Rltb. destruct (Rlt_dec a b); [done|lra]. Qed.

Lemma Rltb_false (a b : R) : ~ a < b -> Rltb a b = false.
Proof. intros H. unfold Rltb. destruct (Rlt_dec a b); [lra|done]. Qed.

Lemma Rleb_true (a b : R) : a <= b -> Rleb a b = true.
Proof. intros H. unfold Rleb. destruct (Rle_dec a b); [done|lra]. Qed.

Lemma Rleb_false (a b : R) : ~ a <= b -> Rleb a b = false.
Proof. intros H. unfold Rleb. destruct (Rle_dec a b); [lra|done]. Qed.

Lemma Reqb_false (a b : R) : a <> b -> Reqb a b = false.
Proof. intros H. unfold Reqb. destruct (Req_dec_T a b); [lra|done]. Qed.

Lemma EPSILON_pos : 0 < / 2 ^ 52.
Proof. apply Rinv_0_lt_compat, pow_lt. lra. Qed.

(** Arithmetic on real-valued complex numbers stays real. *)

Lemma rc_mul (a b : R) : xcmul (rc a) (rc b) = rc (a * b).
Proof. unfold xcmul, rc; cbn. f_equal; f_equal; lra. Qed.

Lemma rc_add (a b : R) : xcadd (rc a) (rc b) = rc (a + b).
Proof. unfold xcadd, rc; cbn. f_equal; f_equal; lra. Qed.

Lemma rc_sub (a b : R) : xcsub (rc a) (rc b) = rc (a - b).
Proof. unfold xcsub, rc; cbn. f_equal; f_equal; lra. Qed.

Lemma rc_div (a b : R) : b <> 0 -> xcdiv (rc a) (rc b) = rc (a / b).
Proof.
  intros Hb. unfold xcdiv, rc; cbn.
  assert (Hd : b * b + 0 * 0 <> 0) by nra.
  rewrite !Reqb_false by exact Hd.
  f_equal; f_equal; field; nra.
Qed.

Lemma rc_conj (a : R) : xcconj (rc a) = rc a.
Proof. unfold xcconj, rc; cbn. f_equal; f_equal; lra. Qed.

Lemma rc_abs (a : R) : xcabs (rc a) = Fin (Rabs a).
Proof.
  unfold xcabs, rc; cbn. f_equal.
  replace (a * a + 0 * 0) with (Rsqr a) by (unfold Rsqr; lra).
  apply sqrt_Rsqr_abs.
Qed.

Lemma rc_sin_0 : xcsin (rc 0) = rc 0.
Proof.
  unfold xcsin, finite2, rc; cbn. rewrite sin_0, cos_0, sinh_0.
  f_equal; f_equal; lra.
Qed.

Lemma rc_cos_0 : xccos (rc 0) = rc 1.
Proof.
  unfold xccos, finite2, rc; cbn. rewrite sin_0, cos_0, cosh_0.
  f_equal; f_equal; lra.
Qed.

Lemma rc_asin_0 : xcasin (rc 0) = rc 0.
Proof.
  unfold xcasin, finite2, rc; cbn.
  replace ((0 + 1) * (0 + 1) + 0 * 0) with 1 by lra.
  replace ((0 - 1) * (0 - 1) + 0 * 0) with 1 by lra.
  rewrite sqrt_1. replace ((1 - 1) / 2) with 0 by lra.
  replace ((1 + 1) / 2) with 1 by lra. replace (1 * 1 - 1) with 0 by lra.
  rewrite sqrt_0, asin_0. replace (1 + 0) with 1 by lra. rewrite ln_1.
  by rewrite Rltb_false by lra.
Qed.

Lemma rc_dcmul (x a : R) : xdcmul (Fin x) (rc a) = rc (x * a).
Proof. unfold xdcmul, rc; cbn. f_equal; f_equal; lra. Qed.

Lemma rc_dcdiv (x a : R) : a <> 0 -> xdcdiv (Fin x) (rc a) = rc (x / a).
Proof. intros Ha. unfold xdcdiv. by apply rc_div. Qed.

Lemma xdiv_Fin (a b : R) : b <> 0 -> xdiv (Fin a) (Fin b) = Fin (a / b).
Proof. intros Hb. cbn. by rewrite Reqb_false. Qed.

(** Replace the operations of [Arithmetic] by those of the instance. *)
Ltac xops :=
  cbv beta iota delta
    [Double_t complex D_of_Z EPSILON inf Pi TwoPi Dmul Ddiv Dabs Dlt Dle Dgt
     Dge Cmake real imag Cadd Csub Cmul Cdiv Cneg Cconj Csin Ccos Casin Cexp
     Cabs DCmul DCdiv DCadd DCsub CDmul CDdiv exact_arithmetic C_of_Z C_of_D
     xgt xge complex_inhabited Double_t_inhabited].

Ltac decide_cmp :=
  repeat match goal with
  | |- context [Rltb ?a ?b] =>
      first [rewrite (Rltb_true a b) by lra | rewrite (Rltb_false a b) by lra]
  | |- context [Rleb ?a ?b] =>
      first [rewrite (Rleb_true a b) by lra | rewrite (Rleb_false a b) by lra]
  end.

Ltac fold_rc :=
  repeat match goal with
  | |- context [MkC (Fin ?a) (Fin 0)] =>
      change (MkC (Fin a) (Fin 0)) with (rc a)
  end.

(** Evaluate the vector operations on concrete vectors. *)
Ltac lists :=
  cbn [for_loop for_loopM Nat.sub Nat.add replicate insert list_insert
       lookup_total list_lookup_total fst snd length app push_back back
       front take drop fRefractiveIndexList fThicknessList air_glass
       coated_glass opaque_film glass_air build fold_left AMultilayer_new
       InsertLayer insert_before_end GetComplexRefractiveIndex air glass
       MgF2 aluminium constant_index negb set_front set_back].

Lemma rc_eq (a b : R) : a = b -> rc a = rc b.
Proof. by intros ->. Qed.

(** *** Air over glass at normal incidence *)

Lemma n_list_of_air_glass (lam : xreal) :
  n_list_of air_glass lam = [rc 1; rc (3 / 2)].
Proof. reflexivity. Qed.

Lemma IsForwardAngle_normal (n : R) (w : World) :
  0 < n -> IsForwardAngle (rc n) (rc 0) w = (true, w).
Proof.
  intros Hn. pose proof EPSILON_pos as He. destruct w as [l e].
  unfold IsForwardAngle. xops.
  rewrite rc_conj, rc_cos_0, rc_mul. cbn [re im rc xmul xabs xlt xle].
  rewrite Rabs_R0. decide_cmp. reflexivity.
Qed.

Lemma input_tests_normal (n : R) (rest : list xcomplex) (w : World) :
  0 < n -> input_tests (rc n :: rest) (rc 0) w = (tt, w).
Proof.
  intros Hn. pose proof EPSILON_pos as He.
  unfold input_tests. xops. lists.
  rewrite rc_sin_0, rc_mul. cbn [re im rc xmul xabs xlt xle].
  rewrite Rabs_R0. decide_cmp.
  unfold bind. rewrite IsForwardAngle_normal by lra. reflexivity.
Qed.

Lemma ListSnell_air_glass (w : World) :
  ListSnell air_glass (rc 0) [rc 1; rc (3 / 2)] [] w = ([rc 0; rc 0], w).
Proof.
  unfold ListSnell. xops. lists.
  rewrite rc_sin_0, !rc_mul, !rc_div by lra.
  replace (1 * 0 / 1) with 0 by lra.
  replace (1 * 0 / (3 / 2)) with 0 by lra. rewrite rc_asin_0.
  unfold bind. repeat (rewrite IsForwardAngle_normal by lra; lists).
  reflexivity.
Qed.

Lemma fresnel_air_glass :
  fresnel 2 kS [rc 1; rc (3 / 2)] [rc 0; rc 0] =
  ([rc (4 / 5); rc 0], [rc (-1 / 5); rc 0]).
Proof.
  unfold fresnel. lists. xops.
  rewrite rc_cos_0, !rc_mul, rc_add, rc_sub, rc_dcmul, !rc_div by lra.
  f_equal; f_equal; apply rc_eq; lra.
Qed.

(** The amplitudes and powers for incidence angle [th_i] with
    [cos th_i = c], the Snell angles being those of normal incidence. *)
Lemma amplitudes_air_glass (th_i : xcomplex) (c : R)
    (kz delta : list xcomplex) :
  xccos th_i = rc c -> c <> 0 ->
  let L := amplitudes_and_power air_glass kS th_i [rc 1; rc (3 / 2)]
                                [rc 0; rc 0] kz delta in
  L_reflectance L = Fin (1 / 25) /\ L_transmittance L = Fin (24 / 25 / c).
Proof.
  intros Hc Hc0. cbv zeta. unfold amplitudes_and_power. lists.
  rewrite fresnel_air_glass.
  unfold M_list_of, Mtilde_product, Mdiv, Mmul. lists.
  cbn [Get00 Get01 Get10 Get11 L_reflectance L_transmittance].
  xops. lists. fold_rc. rewrite Hc.
  rewrite !rc_div by lra. rewrite !rc_mul, !rc_add.
  rewrite rc_div, rc_dcdiv by lra.
  rewrite rc_cos_0, !rc_mul, !rc_abs.
  cbn [re rc xmul]. rewrite !xdiv_Fin by lra. cbn [xmul].
  split; f_equal.
  - match goal with
    | |- context [Rabs ?x] => replace x with (- (1 / 5)) by lra
    end.
    rewrite Rabs_Ropp, Rabs_pos_eq by lra. lra.
  - match goal with
    | |- context [Rabs ?x] => replace x with (16 / 25) by lra
    end.
    rewrite Rabs_pos_eq by lra. field. lra.
Qed.

(** Scenario 1 of the spec, for any wavelength at all: with two layers the
    wavelength only enters the phases of the two ends, which are not
    used.  Nothing is printed and the latch is not touched. *)
Lemma CoherentTMM_air_glass (lam : xreal) (w : World) :
  CoherentTMM air_glass kS (rc 0) lam w =
  (MkOutputs (Some (Fin (1 / 25))) (Some (Fin (24 / 25))), w).
Proof.
  unfold CoherentTMM, CoherentTMM_locals. cbv zeta.
  rewrite n_list_of_air_glass. unfold bind.
  rewrite input_tests_normal by lra. rewrite ListSnell_air_glass.
  unfold clamp_opaque. lists. unfold ret.
  change (AMultilayer_new air glass) with air_glass.
  match goal with
  | |- context [amplitudes_and_power _ _ _ _ _ ?kz ?d] =>
      destruct (amplitudes_air_glass (rc 0) 1 kz d rc_cos_0) as [-> ->];
        [lra|]
  end.
  replace (24 / 25 / 1) with (24 / 25) by lra. reflexivity.
Qed.

(** C4, counterexample.  Air over glass, normal incidence, S-polarization
    and the wavelength -500: the wavelength is not positive, yet the solve
    prints nothing and assigns R = 1/25 and T = 24/25, so the call is not
    rejected. *)
Lemma nonpositive_wavelength_not_rejected :
  let lam_vac := Fin (-500) in
  let m := CoherentTMM air_glass kS (rc 0) lam_vac in
  Dle lam_vac (D_of_Z 0) = true /\
  m initial_world =
    (MkOutputs (Some (Fin (1 / 25))) (Some (Fin (24 / 25))), initial_world) /\
  printed m initial_world = [] /\
  ~ rejected m initial_world.
Proof.
  cbv zeta. split; [|split; [|split]].
  - xops. cbn [xle]. apply Rleb_true. lra.
  - apply CoherentTMM_air_glass.
  - unfold printed. rewrite CoherentTMM_air_glass. reflexivity.
  - intros [_ H]. rewrite CoherentTMM_air_glass in H. discriminate H.
Qed.

(** The same stack lit from behind, [th_0 = PI]: the input test prints
    its error, and the solve still assigns both outputs, the
    transmittance being negative. *)

Lemma rc_sin_PI : xcsin (rc PI) = rc 0.
Proof.
  unfold xcsin, finite2, rc; cbn. rewrite sin_PI, sinh_0.
  f_equal; f_equal; lra.
Qed.

Lemma rc_cos_PI : xccos (rc PI) = rc (-1).
Proof.
  unfold xccos, finite2, rc; cbn. rewrite sin_PI, cos_PI, cosh_0.
  f_equal; f_equal; lra.
Qed.

Lemma input_tests_backward (w : World) :
  input_tests [rc 1; rc (3 / 2)] (rc PI) w =
  (tt, MkWorld (opacity_warning w)
               (errors w ++ [MsgUnclear (rc 1) (rc PI); MsgInput])).
Proof.
  pose proof EPSILON_pos as He. destruct w as [l e].
  unfold input_tests, IsForwardAngle. xops. lists.
  rewrite rc_conj, rc_sin_PI, rc_cos_PI, !rc_mul.
  cbn [re im rc xmul xabs xlt xle].
  replace (1 * 0) with 0 by lra. rewrite Rabs_R0. decide_cmp.
  unfold bind, when, ret, Error. cbn [opacity_warning errors negb].
  by rewrite <- app_assoc.
Qed.

Lemma ListSnell_backward (w : World) :
  ListSnell air_glass (rc PI) [rc 1; rc (3 / 2)] [] w = ([rc 0; rc 0], w).
Proof.
  unfold ListSnell. xops. lists.
  rewrite rc_sin_PI, !rc_mul, !rc_div by lra.
  replace (1 * 0 / 1) with 0 by lra.
  replace (1 * 0 / (3 / 2)) with 0 by lra. rewrite rc_asin_0.
  unfold bind. repeat (rewrite IsForwardAngle_normal by lra; lists).
  reflexivity.
Qed.

Lemma backward_incidence_still_solved (lam : xreal) :
  let m := CoherentTMM air_glass kS (rc PI) lam in
  input_test_fails (n_list_of air_glass lam) (rc PI) = true /\
  m initial_world =
    (MkOutputs (Some (Fin (1 / 25))) (Some (Fin (- (24 / 25)))),
     MkWorld false [MsgUnclear (rc 1) (rc PI); MsgInput]).
Proof.
  cbv zeta. split.
  - pose proof EPSILON_pos as He.
    unfold input_test_fails, IsForwardAngle_answer. xops.
    rewrite n_list_of_air_glass. lists.
    rewrite rc_sin_PI, rc_cos_PI, !rc_mul.
    cbn [re im rc xmul xabs xlt xle].
    rewrite Rabs_R0. by decide_cmp.
  - unfold CoherentTMM, CoherentTMM_locals. cbv zeta.
    rewrite n_list_of_air_glass. unfold bind.
    rewrite input_tests_backward, ListSnell_backward.
    unfold clamp_opaque. lists. unfold ret.
    change (AMultilayer_new air glass) with air_glass.
    match goal with
    | |- context [amplitudes_and_power _ _ _ _ _ ?kz ?d] =>
        destruct (amplitudes_air_glass (rc PI) (-1) kz d rc_cos_PI)
          as [-> ->]; [lra|]
    end.
    replace (24 / 25 / -1) with (- (24 / 25)) by lra. reflexivity.
Qed.

(** *** An opaque film: the warning and the latch *)

Lemma PI_gt_3 : 3 < PI.
Proof. pose proof PI2_3_2. lra. Qed.

Lemma n_list_of_opaque_film (lam : xreal) :
  n_list_of opaque_film lam = [rc 1; n_Al; rc (3 / 2)].
Proof. reflexivity. Qed.

Lemma xcdiv_zero (c d : R) :
  c * c + d * d <> 0 -> xcdiv (rc 0) (MkC (Fin c) (Fin d)) = rc 0.
Proof.
  intros Hd. unfold xcdiv, rc. cbn. rewrite !Reqb_false by exact Hd.
  f_equal; f_equal; field; exact Hd.
Qed.

Lemma ListSnell_opaque_film (w : World) :
  ListSnell opaque_film (rc 0) [rc 1; n_Al; rc (3 / 2)] [] w =
  ([rc 0; rc 0; rc 0], w).
Proof.
  unfold ListSnell. xops. lists.
  rewrite rc_sin_0, !rc_mul. replace (1 * 0) with 0 by lra.
  rewrite !rc_div by lra. unfold n_Al. rewrite xcdiv_zero by lra.
  replace (0 / 1) with 0 by lra. replace (0 / (3 / 2)) with 0 by lra.
  rewrite rc_asin_0.
  unfold bind. repeat (rewrite IsForwardAngle_normal by lra; lists).
  reflexivity.
Qed.

(** The phase of the film has imaginary part [2 PI (297/50) 1000 / 500],
    beyond 35: the loop clamps it, sets the latch and, if the latch was
    clear, prints the warning. *)
Lemma clamp_opaque_film (l : bool) (e : list Message) :
  let kz :=
    kz_list_of 3 [rc 1; n_Al; rc (3 / 2)] [rc 0; rc 0; rc 0] (Fin 500) in
  let delta := delta_of 3 kz [PInf; Fin 1000; PInf] in
  snd (clamp_opaque 3 delta (MkWorld l e)) =
  MkWorld true (e ++ if l then [] else [MsgOpacity]).
Proof.
  pose proof PI_gt_3 as Hpi.
  cbv zeta. unfold clamp_opaque, delta_of, kz_list_of. lists. xops.
  rewrite rc_cos_0. unfold n_Al, xcdmul, xcddiv, xcmul, xdcmul.
  cbn [re im rc xmul xadd xsub xneg].
  rewrite !xdiv_Fin by lra. cbn [xmul xlt]. decide_cmp.
  unfold bind, get_opacity_warning, set_opacity_warning, Error, ret.
  destruct l; cbn; by rewrite ?app_nil_r.
Qed.

Lemma CoherentTMM_opaque_film (l : bool) (e : list Message) :
  snd (CoherentTMM opaque_film kS (rc 0) (Fin 500) (MkWorld l e)) =
  MkWorld true (e ++ if l then [] else [MsgOpacity]).
Proof.
  unfold CoherentTMM, CoherentTMM_locals. cbv zeta.
  rewrite n_list_of_opaque_film. unfold bind.
  rewrite input_tests_normal by lra. rewrite ListSnell_opaque_film.
  change (length (fRefractiveIndexList opaque_film)) with 3%nat.
  change (fThicknessList opaque_film) with [PInf; Fin 1000; PInf].
  pose proof (clamp_opaque_film l e) as H. cbv zeta in H.
  destruct (clamp_opaque 3 _ _) as [d w']. exact H.
Qed.

(** One solve of the opaque film in a fresh process prints the warning;
    three solves print it once. *)
Lemma opaque_film_warns_once :
  let c := MkCall opaque_film kS (rc 0) (Fin 500) in
  snd (run_calls [c] initial_world) = MkWorld true [MsgOpacity] /\
  snd (run_calls [c; c; c] initial_world) = MkWorld true [MsgOpacity].
Proof.
  cbv zeta. unfold run_calls, run_call, initial_world.
  cbn [call_stack call_polarization call_th_0 call_lam_vac].
  pose proof (CoherentTMM_opaque_film false []) as H1.
  pose proof (CoherentTMM_opaque_film true [MsgOpacity]) as H2.
  destruct (CoherentTMM _ _ _ _ (MkWorld false [])) as [o1 w1].
  cbn [snd app] in H1. subst w1.
  split; [reflexivity|].
  destruct (CoherentTMM _ _ _ _ (MkWorld true [MsgOpacity])) as [o2 w2].
  cbn [snd app] in H2. subst w2.
  pose proof (CoherentTMM_opaque_film true [MsgOpacity]) as H3.
  destruct (CoherentTMM _ _ _ _ (MkWorld true [MsgOpacity])) as [o3 w3].
  cbn [snd app] in H3. subst w3. reflexivity.
Qed.

(** *** Total internal reflection: both ends are corrected

    Glass over air at grazing incidence, [th_0 = PI/2], so that
    [n_0 sin th_0 = 3/2].  The principal arcsine gives [PI/2] in the glass
    and [PI/2 + i L_air] in air; [IsForwardAngle] answers no for both, and
    [ListSnell] replaces each by [PI] minus itself, which in air is the
    decaying branch [PI/2 - i L_air]. *)

Lemma EPSILON_small : 100 * / 2 ^ 52 < 1.
Proof.
  assert (H : 2 ^ 7 < 2 ^ 52) by (apply Rlt_pow; [lra|lia]).
  assert (H7 : 2 ^ 7 = 128) by (simpl; lra).
  assert (Hp : 0 < 2 ^ 52) by (apply pow_lt; lra).
  assert (Hi : / 2 ^ 52 < / 128).
  { apply Rinv_lt_contravar; [nra|lra]. }
  lra.
Qed.

Lemma sqrt_5_4 : 1 < sqrt (5 / 4).
Proof. rewrite <- sqrt_1 at 1. apply sqrt_lt_1; lra. Qed.

Lemma sinh_L_air : 1 < sinh L_air.
Proof.
  pose proof sqrt_5_4 as Hs. unfold sinh, L_air.
  rewrite exp_Ropp, exp_ln by lra.
  assert (Hi : / (3 / 2 + sqrt (5 / 4)) < / (5 / 2)).
  { apply Rinv_lt_contravar; [nra|lra]. }
  lra.
Qed.

Lemma sinh_opp (x : R) : sinh (- x) = - sinh x.
Proof. unfold sinh. rewrite Ropp_involutive. lra. Qed.

Lemma rc_sin_PI2 : xcsin (rc (PI / 2)) = rc 1.
Proof.
  unfold xcsin, finite2, rc; cbn. rewrite sin_PI2, cos_PI2, cosh_0.
  f_equal; f_equal; lra.
Qed.

Lemma rc_cos_PI2 : xccos (rc (PI / 2)) = rc 0.
Proof.
  unfold xccos, finite2, rc; cbn. rewrite sin_PI2, cos_PI2, sinh_0.
  f_equal; f_equal; lra.
Qed.

Lemma rc_asin_1 : xcasin (rc 1) = rc (PI / 2).
Proof.
  unfold xcasin, finite2, rc; cbn.
  replace ((1 + 1) * (1 + 1) + 0 * 0) with (2 * 2) by lra.
  replace ((1 - 1) * (1 - 1) + 0 * 0) with 0 by lra.
  rewrite sqrt_square, sqrt_0 by lra.
  replace ((2 - 0) / 2) with 1 by lra. replace ((2 + 0) / 2) with 1 by lra.
  replace (1 * 1 - 1) with 0 by lra.
  rewrite sqrt_0, asin_1. replace (1 + 0) with 1 by lra. rewrite ln_1.
  by rewrite Rltb_false by lra.
Qed.

Lemma rc_asin_3_2 : xcasin (rc (3 / 2)) = MkC (Fin (PI / 2)) (Fin L_air).
Proof.
  unfold xcasin, finite2, rc, L_air; cbn.
  replace ((3 / 2 + 1) * (3 / 2 + 1) + 0 * 0) with (5 / 2 * (5 / 2)) by lra.
  replace ((3 / 2 - 1) * (3 / 2 - 1) + 0 * 0) with (1 / 2 * (1 / 2)) by lra.
  rewrite !sqrt_square by lra.
  replace ((5 / 2 - 1 / 2) / 2) with 1 by lra.
  replace ((5 / 2 + 1 / 2) / 2) with (3 / 2) by lra.
  replace (3 / 2 * (3 / 2) - 1) with (5 / 4) by lra.
  rewrite asin_1. by rewrite Rltb_false by lra.
Qed.

Lemma IsForwardAngle_grazing (n : R) (l : bool) (e : list Message) :
  IsForwardAngle (rc n) (rc (PI / 2)) (MkWorld l e) =
  (false, MkWorld l (e ++ [MsgUnclear (rc n) (rc (PI / 2))])).
Proof.
  pose proof EPSILON_pos as He.
  unfold IsForwardAngle. xops.
  rewrite rc_conj, rc_cos_PI2, rc_mul. cbn [re im rc xmul xabs xlt xle].
  rewrite Rabs_R0. decide_cmp.
  unfold bind, when, ret, Error. cbn [opacity_warning errors]. reflexivity.
Qed.

Lemma IsForwardAngle_evanescent (l : bool) (e : list Message) :
  let th := MkC (Fin (PI / 2)) (Fin L_air) in
  IsForwardAngle (rc 1) th (MkWorld l e) =
  (false, MkWorld l (e ++ [MsgUnclear (rc 1) th])).
Proof.
  pose proof EPSILON_pos as He. pose proof EPSILON_small as Hs.
  pose proof sinh_L_air as Hl.
  cbv zeta. unfold IsForwardAngle. xops.
  unfold xcconj, xccos, finite2, xcmul.
  cbn [re im rc xmul xadd xsub xneg xabs xlt xle].
  rewrite sin_PI2, cos_PI2, sinh_opp.
  rewrite Rabs_left by lra. decide_cmp.
  unfold bind, when, ret, Error. cbn [opacity_warning errors]. reflexivity.
Qed.

Lemma ListSnell_total_reflection (l : bool) (e : list Message) :
  ListSnell glass_air (rc (PI / 2)) [rc (3 / 2); rc 1] [] (MkWorld l e) =
  ([rc (PI / 2); MkC (Fin (PI / 2)) (Fin (- L_air))],
   MkWorld l (e ++ [MsgUnclear (rc (3 / 2)) (rc (PI / 2));
                    MsgUnclear (rc 1) (MkC (Fin (PI / 2)) (Fin L_air))])).
Proof.
  unfold ListSnell. xops. lists.
  rewrite rc_sin_PI2, !rc_mul, !rc_div by lra.
  replace (3 / 2 * 1 / (3 / 2)) with 1 by lra.
  replace (3 / 2 * 1 / 1) with (3 / 2) by lra.
  rewrite rc_asin_1, rc_asin_3_2.
  unfold bind. rewrite IsForwardAngle_grazing. lists.
  rewrite (IsForwardAngle_evanescent l). lists.
  unfold ret, xdcsub. cbn [re im rc xsub xadd xneg].
  rewrite <- app_assoc. cbn [app].
  replace (PI + - (PI / 2)) with (PI / 2) by lra.
  replace (- 0) with 0 by lra. reflexivity.
Qed.

(** *** The two readings of the formulas agree in exact arithmetic

    The source divides the matrix [[1 r_0][r_0 1]] by [t_0] and takes
    [|t t|]; the reference derivation multiplies by [1/t_0] and takes
    [|t|^2].  On finite numbers these are the same. *)

Lemma exact_division_is_reciprocal (a b c d : R) :
  c * c + d * d <> 0 ->
  xcdiv (MkC (Fin a) (Fin b)) (MkC (Fin c) (Fin d)) =
  xcmul (xdcdiv (Fin 1) (MkC (Fin c) (Fin d))) (MkC (Fin a) (Fin b)).
Proof.
  intros Hd. unfold xdcdiv, xcdiv, xcmul. cbn.
  rewrite !Reqb_false by exact Hd. cbn.
  f_equal; f_equal; field; exact Hd.
Qed.

Lemma exact_Mdiv_is_Mscale (a00 a01 a10 a11 : xcomplex) (c d : R) :
  (forall z, In z [a00; a01; a10; a11] ->
             exists x y, z = MkC (Fin x) (Fin y)) ->
  c * c + d * d <> 0 ->
  let t := MkC (Fin c) (Fin d) in
  Mdiv (MkMatrix a00 a01 a10 a11) t =
  Mscale (DCdiv (D_of_Z 1) t) (MkMatrix a00 a01 a10 a11).
Proof.
  intros Hfin Hd. cbv zeta. unfold Mdiv, Mscale. cbn [Get00 Get01 Get10 Get11].
  destruct (Hfin a00) as (x0 & y0 & ->); [cbn; tauto|].
  destruct (Hfin a01) as (x1 & y1 & ->); [cbn; tauto|].
  destruct (Hfin a10) as (x2 & y2 & ->); [cbn; tauto|].
  destruct (Hfin a11) as (x3 & y3 & ->); [cbn; tauto|].
  xops. by rewrite !exact_division_is_reciprocal by exact Hd.
Qed.

Lemma exact_modulus_of_square (a b : R) :
  let z := MkC (Fin a) (Fin b) in
  Cabs (Cmul z z) = Dmul (Cabs z) (Cabs z).
Proof.
  cbv zeta. xops. unfold xcabs, xcmul. cbn. f_equal.
  rewrite sqrt_sqrt by nra.
  replace ((a * a + - (b * b)) * (a * a + - (b * b)) +
           (a * b + b * a) * (a * b + b * a))
    with ((a * a + b * b) * (a * a + b * b)) by ring.
  apply sqrt_square. nra.
Qed.

(** *** InsertLayer stores any thickness *)

Lemma InsertLayer_stores_any_thickness :
  fThicknessList (InsertLayer air_glass MgF2 (Fin 0)) =
    [PInf; Fin 0; PInf] /\
  fThicknessList (InsertLayer air_glass MgF2 (Fin (-100))) =
    [PInf; Fin (-100); PInf] /\
  fThicknessList (InsertLayer air_glass MgF2 PInf) = [PInf; PInf; PInf] /\
  fThicknessList (InsertLayer air_glass MgF2 NaN) = [PInf; NaN; PInf].
Proof. repeat split. Qed.

(** *** The theorems at concrete stacks *)

(** C1 at the coated glass (N = 3, one interior layer). *)
Lemma transfer_matrix_composition_at_coated_glass :
  let L := fst (CoherentTMM_locals coated_glass kS (rc 0) (Fin 550)
                                   initial_world) in
  (2 <= num_layers coated_glass)%nat /\
  L_M_list L !!! 1%nat =
    layer_matrix (L_t_list L !!! 1%nat) (L_r_list L !!! 1%nat)
                 (L_delta L !!! 1%nat) /\
  L_r L = Cdiv (Get10 (L_Mtilde L)) (Get00 (L_Mtilde L)) /\
  L_t L = DCdiv (D_of_Z 1) (Get00 (L_Mtilde L)).
Proof.
  assert (HN : (2 <= num_layers coated_glass)%nat) by (vm_compute; lia).
  destruct (transfer_matrix_composition coated_glass kS (rc 0) (Fin 550)
              initial_world HN) as (HM & _ & _ & Hr & Ht).
  cbv zeta. split; [exact HN|]. split; [|split; [exact Hr|exact Ht]].
  apply (HM 1%nat). cbn. lia.
Defined.

(** C2 at air over glass. *)
Lemma power_from_amplitudes_at_air_glass :
  let L := fst (CoherentTMM_locals air_glass kS (rc 0) (Fin 500)
                                   initial_world) in
  let out := fst (CoherentTMM air_glass kS (rc 0) (Fin 500) initial_world) in
  (2 <= num_layers air_glass)%nat /\
  reflectance out = Some (Dmul (Cabs (L_r L)) (Cabs (L_r L))).
Proof.
  assert (HN : (2 <= num_layers air_glass)%nat) by (vm_compute; lia).
  cbv zeta. split; [exact HN|].
  exact (proj1 (power_from_amplitudes air_glass kS (rc 0) (Fin 500)
                  initial_world HN)).
Defined.

(** C4, as the code has it, at air over glass with the wavelength -500. *)
Lemma input_test_only_prints_at_air_glass :
  let L := fst (CoherentTMM_locals air_glass kS (rc 0) (Fin (-500))
                                   initial_world) in
  (2 <= num_layers air_glass)%nat /\
  fst (CoherentTMM air_glass kS (rc 0) (Fin (-500)) initial_world) =
  MkOutputs (Some (L_reflectance L)) (Some (L_transmittance L)).
Proof.
  assert (HN : (2 <= num_layers air_glass)%nat) by (vm_compute; lia).
  split; [exact HN|].
  exact (proj2 (input_test_only_prints air_glass kS (rc 0) (Fin (-500))
                  initial_world HN)).
Defined.

(** C6 at air over glass. *)
Lemma ListSnell_angles_at_air_glass :
  let th_list :=
    fst (ListSnell air_glass (rc 0) [rc 1; rc (3 / 2)] [] initial_world) in
  (2 <= num_layers air_glass)%nat /\
  length [rc 1; rc (3 / 2)] = num_layers air_glass /\
  length th_list = num_layers air_glass.
Proof.
  assert (HN : (2 <= num_layers air_glass)%nat) by (vm_compute; lia).
  assert (Hlen : length [rc 1; rc (3 / 2)] = num_layers air_glass)
    by reflexivity.
  cbv zeta. split; [exact HN|]. split; [exact Hlen|].
  exact (proj1 (ListSnell_angles air_glass (rc 0) [rc 1; rc (3 / 2)]
                  initial_world HN Hlen)).
Defined.

(** C7 at the one interface of air over glass. *)
Lemma fresnel_amplitudes_at_air_glass :
  let L := fst (CoherentTMM_locals air_glass kS (rc 0) (Fin 500)
                                   initial_world) in
  let n k := L_n_list L !!! k in
  let c k := Ccos (L_th_list L !!! k) in
  (0 + 1 < num_layers air_glass)%nat /\
  L_r_list L !!! 0%nat =
    Cdiv (Csub (Cmul (n 0%nat) (c 0%nat)) (Cmul (n 1%nat) (c 1%nat)))
         (Cadd (Cmul (n 0%nat) (c 0%nat)) (Cmul (n 1%nat) (c 1%nat))).
Proof.
  assert (Hi : (0 + 1 < num_layers air_glass)%nat) by (vm_compute; lia).
  cbv zeta. split; [exact Hi|].
  exact (proj2 (fresnel_amplitudes air_glass kS (rc 0) (Fin 500)
                  initial_world 0 Hi)).
Defined.

(** C8 at the coated glass. *)
Lemma opacity_clamp_at_coated_glass :
  let L := fst (CoherentTMM_locals coated_glass kS (rc 0) (Fin 550)
                                   initial_world) in
  (2 <= num_layers coated_glass)%nat /\
  L_delta L !!! 0%nat = CDmul (L_kz_list L !!! 0%nat) inf /\
  forall cs : list Call,
    (count_opacity (errors (snd (run_calls cs initial_world))) <= 1)%nat.
Proof.
  assert (HN : (2 <= num_layers coated_glass)%nat) by (vm_compute; lia).
  destruct (opacity_clamp coated_glass kS (rc 0) (Fin 550) initial_world HN)
    as (_ & H0 & _ & _ & Hc & _).
  cbv zeta. split; [exact HN|]. split; [exact H0|exact Hc].
Defined.

End ExactRuns.

(** * Further properties of the code *)

Section MoreProperties.

Context {AR : Arithmetic}.

(** ** What a solve depends on *)

Lemma n_list_of_ext (ns ns' : list ARefractiveIndex) (ds ds' : list Double_t)
    (lam_vac : Double_t) :
  length ns = length ns' ->
  (forall i, i < length ns ->
     GetComplexRefractiveIndex (ns !!! i) lam_vac =
     GetComplexRefractiveIndex (ns' !!! i) lam_vac) ->
  n_list_of (MkMultilayer ns ds) lam_vac =
  n_list_of (MkMultilayer ns' ds') lam_vac.
Proof.
  intros Hlen Hn. rewrite !n_list_of_eq. unfold num_layers.
  cbn [fRefractiveIndexList]. rewrite <- Hlen.
  apply List.map_ext_in. intros i Hi. apply List.in_seq in Hi.
  apply Hn. lia.
Qed.

(** ** The opacity loop, exactly *)

Lemma warn_once_idem (w : World) : warn_once (warn_once w) = warn_once w.
Proof. destruct w as [[|] e]; reflexivity. Qed.

Lemma existsb_seq_ext (f g : nat -> bool) (lo n : nat) :
  (forall i, lo <= i < lo + n -> f i = g i) ->
  existsb f (seq lo n) = existsb g (seq lo n).
Proof.
  revert lo. induction n as [|n IH]; intros lo H; cbn [seq existsb]; [done|].
  rewrite (H lo) by lia. f_equal. apply IH. intros i Hi. apply H. lia.
Qed.

Lemma clamp_loop_exact (n lo : nat) (delta : list complex) (w : World) :
  for_loopM lo n (fun i delta =>
    if Dgt (imag (delta !!! i)) (D_of_Z 35) then
      bind get_opacity_warning (fun opacity_warning =>
        bind (if negb opacity_warning
              then bind (set_opacity_warning true) (fun _ => Error MsgOpacity)
              else ret tt)
             (fun _ => ret (<[i := DCadd (real (delta !!! i))
                                         (Cmake (D_of_Z 0) (D_of_Z 35))]>
                              delta)))
    else ret delta) delta w =
  (for_loop lo n (fun i delta =>
     if Dgt (imag (delta !!! i)) (D_of_Z 35)
     then <[i := DCadd (real (delta !!! i)) (Cmake (D_of_Z 0) (D_of_Z 35))]>
            delta
     else delta) delta,
   if existsb (fun i => Dgt (imag (delta !!! i)) (D_of_Z 35)) (seq lo n)
   then warn_once w else w).
Proof.
  revert lo delta w.
  induction n as [|n IH]; intros lo delta w; cbn [for_loopM for_loop seq existsb].
  - reflexivity.
  - unfold bind at 1.
    destruct (Dgt (imag (delta !!! lo)) (D_of_Z 35)) eqn:Hc.
    + set (v := DCadd (real (delta !!! lo)) (Cmake (D_of_Z 0) (D_of_Z 35))).
      assert (Hstep :
        bind get_opacity_warning (fun opacity_warning =>
          bind (if negb opacity_warning
                then bind (set_opacity_warning true)
                          (fun _ => Error MsgOpacity)
                else ret tt)
               (fun _ => ret (<[lo := v]> delta))) w =
        (<[lo := v]> delta, warn_once w)).
      { unfold warn_once. destruct w as [[|] e]; reflexivity. }
      rewrite Hstep, IH. cbn [orb]. f_equal.
      rewrite warn_once_idem.
      rewrite (existsb_seq_ext
                 (fun i => Dgt (imag (<[lo := v]> delta !!! i)) (D_of_Z 35))
                 (fun i => Dgt (imag (delta !!! i)) (D_of_Z 35)))
        by (intros i Hi; by rewrite list_lookup_total_insert_ne by lia).
      by destruct (existsb _ _).
    + unfold ret at 1. rewrite IH. reflexivity.
Qed.

Lemma clamp_opaque_exact (N : nat) (delta : list complex) (w : World) :
  clamp_opaque N delta w =
  (clamp_value N delta, if any_opaque N delta then warn_once w else w).
Proof. apply clamp_loop_exact. Qed.

(** One solve, exactly: the value, the latch and what is printed before
    the opacity loop. *)
Lemma CoherentTMM_run_exact (self : AMultilayer) (pol : EPolarization)
    (th_0 : complex) (lam_vac : Double_t) (w : World) :
  let V := CoherentTMM_value self pol th_0 lam_vac in
  let N := length (fRefractiveIndexList self) in
  let opaque := any_opaque N (delta_of N (L_kz_list V) (fThicknessList self)) in
  exists extra,
    CoherentTMM self pol th_0 lam_vac w =
      (MkOutputs (Some (L_reflectance V)) (Some (L_transmittance V)),
       let w1 := MkWorld (opacity_warning w) (errors w ++ extra) in
       if opaque then warn_once w1 else w1) /\
    count_opacity extra = 0%nat /\
    count_input extra =
      (if input_test_fails (n_list_of self lam_vac) th_0 then 1 else 0)%nat.
Proof.
  cbv zeta. destruct w as [l e].
  destruct (input_tests_run (n_list_of self lam_vac) th_0 (MkWorld l e))
    as (e1 & H1 & F1).
  unfold run_with in H1. cbn [opacity_warning errors] in H1.
  set (e1' := e1 ++ _) in H1.
  destruct (ListSnell_run self th_0 (n_list_of self lam_vac) []
              (MkWorld l (e ++ e1'))) as (e2 & H2 & F2).
  unfold run_with in H2. cbn [opacity_warning errors] in H2.
  exists (e1' ++ e2). split; [|split].
  - unfold CoherentTMM, CoherentTMM_locals. cbv zeta. unfold bind.
    rewrite H1, H2, clamp_opaque_exact. unfold ret.
    cbn [opacity_warning errors]. rewrite app_assoc.
    unfold CoherentTMM_value. cbv zeta.
    unfold amplitudes_and_power at 3. cbv zeta. cbn [L_kz_list].
    reflexivity.
  - subst e1'. rewrite !count_opacity_app, count_opacity_input,
      (count_opacity_angle e1 F1), (count_opacity_angle e2 F2). reflexivity.
  - assert (Hang : forall x, Forall is_angle_msg x -> count_input x = 0%nat).
    { induction 1 as [|m x Hm _ IH]; [done|]. destruct m; try done; exact IH. }
    assert (Happ : forall a b,
              count_input (a ++ b) = (count_input a + count_input b)%nat).
    { intros a b. unfold count_input.
      by rewrite List.filter_app, length_app. }
    subst e1'. rewrite !Happ, (Hang e1 F1), (Hang e2 F2).
    by destruct (input_test_fails _ _).
Qed.

Lemma count_input_app (a b : list Message) :
  count_input (a ++ b) = (count_input a + count_input b)%nat.
Proof. unfold count_input. by rewrite List.filter_app, length_app. Qed.

(** X1.  One solve and the opacity warning, exactly.  Call a stack opaque
    at the solve if some interior layer has [Im(kz_i * d_i) > 35].  After
    the solve the latch is set if and only if it was set before or the
    stack is opaque; the warning is printed (once) if and only if the latch
    was clear and the stack is opaque; "Error in n0 or th0!" is printed at
    most once; and the log only grows. *)
Theorem opacity_warning_exactly (self : AMultilayer) (pol : EPolarization)
    (th_0 : complex) (lam_vac : Double_t) (w : World) :
  2 <= num_layers self ->
  let N := num_layers self in
  let L := fst (CoherentTMM_locals self pol th_0 lam_vac w) in
  let raw i := CDmul (L_kz_list L !!! i) (fThicknessList self !!! i) in
  let m := CoherentTMM self pol th_0 lam_vac in
  let opaque :=
    exists i, 1 <= i <= N - 2 /\ Dgt (imag (raw i)) (D_of_Z 35) = true in
  (opacity_warning (snd (m w)) = true <->
     opacity_warning w = true \/ opaque) /\
  (count_opacity (printed m w) = 1%nat <->
     opacity_warning w = false /\ opaque) /\
  count_opacity (printed m w) <= 1 /\
  count_input (printed m w) <= 1 /\
  errors (snd (m w)) = errors w ++ printed m w.
Proof.
  intros HN N L raw m opaque.
  assert (Hop : any_opaque N (delta_of N (L_kz_list L) (fThicknessList self))
                = true <-> opaque).
  { unfold any_opaque, opaque. rewrite existsb_exists. split.
    - intros (i & Hi & Hc). apply List.in_seq in Hi. exists i.
      split; [lia|]. subst raw. cbv beta.
      by rewrite <- (delta_of_lookup N) by lia.
    - intros (i & Hi & Hc). exists i. split; [apply List.in_seq; lia|].
      by rewrite delta_of_lookup by lia. }
  subst L. rewrite CoherentTMM_locals_fst in Hop.
  destruct (CoherentTMM_run_exact self pol th_0 lam_vac w)
    as (extra & Hrun & Hco & Hci). cbv zeta in Hrun.
  change (length (fRefractiveIndexList self)) with N in Hrun.
  assert (Hci1 : count_input extra <= 1)
    by (rewrite Hci; destruct (input_test_fails _ _); lia).
  clear Hci. subst m. unfold printed. rewrite Hrun. cbn [snd]. clear Hrun.
  destruct w as [l e]. cbn [opacity_warning errors].
  destruct (any_opaque N _) eqn:Ha.
  - assert (Ho : opaque) by (by apply Hop).
    unfold warn_once. cbn [opacity_warning errors]. destruct l.
    + cbn [opacity_warning errors]. rewrite drop_app_length, Hco.
      repeat split; try done; try lia; auto.
    + cbn [opacity_warning errors]. rewrite <- app_assoc, drop_app_length.
      rewrite count_opacity_app, count_input_app, Hco.
      change (count_opacity [MsgOpacity]) with 1%nat.
      change (count_input [MsgOpacity]) with 0%nat.
      repeat split; try done; try lia; auto.
  - assert (Ho : ~ opaque) by (rewrite <- Hop; congruence).
    cbn [opacity_warning errors]. rewrite drop_app_length, Hco.
    repeat split; try done; try lia; try tauto.
Qed.

(** ** What a solve reads of the stack *)

Lemma M_list_of_agree (N : nat) (t_list r_list delta delta' : list complex) :
  (forall i, 1 <= i <= N - 2 -> delta !!! i = delta' !!! i) ->
  M_list_of N t_list r_list delta = M_list_of N t_list r_list delta'.
Proof.
  intros Hag. rewrite !M_list_of_eq. do 2 f_equal.
  apply List.map_ext_in. intros i Hi. apply List.in_seq in Hi.
  by rewrite Hag by lia.
Qed.

Lemma clamp_value_agree (N : nat) (delta delta' : list complex) (i : nat) :
  length delta = length delta' -> i < length delta ->
  delta !!! i = delta' !!! i ->
  clamp_value N delta !!! i = clamp_value N delta' !!! i.
Proof.
  intros Hlen Hi Hag. rewrite !clamp_value_lookup by lia. by rewrite Hag.
Qed.

(** X2.  A solve reads the stack only through the number of layers, the
    index of each layer at [lam_vac] and the thicknesses of the interior
    layers: two stacks that agree on these give the same outputs, the same
    prints and the same latch, whatever the thicknesses stored for the two
    ends and whatever the dispersion models do at other wavelengths. *)
Theorem solve_reads_only (ns ns' : list ARefractiveIndex)
    (ds ds' : list Double_t) (pol : EPolarization) (th_0 : complex)
    (lam_vac : Double_t) (w : World) :
  length ns = length ns' ->
  (forall i, i < length ns ->
     GetComplexRefractiveIndex (ns !!! i) lam_vac =
     GetComplexRefractiveIndex (ns' !!! i) lam_vac) ->
  (forall i, 1 <= i <= length ns - 2 -> ds !!! i = ds' !!! i) ->
  CoherentTMM (MkMultilayer ns ds) pol th_0 lam_vac w =
  CoherentTMM (MkMultilayer ns' ds') pol th_0 lam_vac w.
Proof.
  intros Hlen Hn Hd.
  unfold CoherentTMM, CoherentTMM_locals. cbv zeta.
  rewrite <- (n_list_of_ext ns ns' ds ds' lam_vac Hlen Hn).
  set (n_list := n_list_of (MkMultilayer ns ds) lam_vac).
  cbn [fRefractiveIndexList fThicknessList]. rewrite <- Hlen.
  set (N := length ns).
  assert (HLS : forall th l w0,
            ListSnell (MkMultilayer ns' ds') th l [] w0 =
            ListSnell (MkMultilayer ns ds) th l [] w0).
  { intros th l w0. unfold ListSnell. cbn [fRefractiveIndexList].
    by rewrite <- Hlen. }
  unfold bind.
  destruct (input_tests n_list th_0 w) as [[] w1]. rewrite HLS.
  destruct (ListSnell (MkMultilayer ns ds) th_0 n_list [] w1) as [th_list w2].
  set (kz := kz_list_of N n_list th_list lam_vac).
  rewrite !clamp_opaque_exact. unfold ret.
  assert (Hraw : forall i, 1 <= i <= N - 2 ->
            delta_of N kz ds !!! i = delta_of N kz ds' !!! i).
  { intros i Hi. rewrite !delta_of_lookup by lia. by rewrite Hd. }
  assert (Hany : any_opaque N (delta_of N kz ds) =
                 any_opaque N (delta_of N kz ds')).
  { unfold any_opaque. apply existsb_seq_ext. intros i Hi.
    by rewrite Hraw by lia. }
  rewrite <- Hany. f_equal.
  unfold amplitudes_and_power. cbv zeta.
  cbn [fRefractiveIndexList L_reflectance L_transmittance]. rewrite <- Hlen.
  fold N.
  rewrite (M_list_of_agree N _ _
             (clamp_value N (delta_of N kz ds))
             (clamp_value N (delta_of N kz ds'))); [done|].
  intros i Hi. apply clamp_value_agree.
  - by rewrite !delta_of_length.
  - rewrite delta_of_length. lia.
  - by apply Hraw.
Qed.

(** X3.  In an arithmetic where [x + (0, 35)] has imaginary part 35 and 35
    does not exceed itself (exact arithmetic and IEEE doubles are such),
    no interior phase the solver keeps exceeds 35: the matrices are built
    from phases whose exponentials are bounded by [exp 35]. *)
Theorem clamped_phase_bounded (self : AMultilayer) (pol : EPolarization)
    (th_0 : complex) (lam_vac : Double_t) (w : World) (i : nat) :
  (forall x, Dgt (imag (DCadd x (Cmake (D_of_Z 0) (D_of_Z 35)))) (D_of_Z 35)
             = false) ->
  1 <= i <= num_layers self - 2 ->
  let L := fst (CoherentTMM_locals self pol th_0 lam_vac w) in
  Dgt (imag (L_delta L !!! i)) (D_of_Z 35) = false.
Proof.
  intros Hlaw Hi L. subst L. rewrite CoherentTMM_locals_fst.
  unfold CoherentTMM_value, amplitudes_and_power. cbv zeta. cbn [L_delta].
  unfold num_layers in Hi.
  rewrite clamp_value_lookup by (rewrite delta_of_length; lia).
  case_decide; [|lia].
  destruct (Dgt (imag (delta_of _ _ _ !!! i)) (D_of_Z 35)) eqn:E;
    [apply Hlaw | exact E].
Qed.

(** ** The stack keeps the order of insertion *)

(** X4.  After the constructor and the insertions [ins], in that order, the
    stack has [length ins + 2] layers and the layer inserted [j]-th sits at
    position [j + 1] with the thickness it was inserted with: layers read
    from top to bottom in the order they were inserted. *)
Theorem layers_in_insertion_order (top bottom : ARefractiveIndex)
    (ins : list (ARefractiveIndex * Double_t)) (j : nat) :
  j < length ins ->
  let s := build top bottom ins in
  num_layers s = (length ins + 2)%nat /\
  fRefractiveIndexList s !!! (j + 1)%nat = fst (ins !!! j) /\
  fThicknessList s !!! (j + 1)%nat = snd (ins !!! j).
Proof.
  intros Hj. cbv zeta. rewrite build_lists. unfold num_layers.
  cbn [fRefractiveIndexList fThicknessList].
  replace (j + 1)%nat with (S j) by lia.
  repeat split.
  - cbn [length]. rewrite length_app, length_map. cbn [length]. lia.
  - rewrite lookup_total_cons_ne_0 by lia. cbn [Nat.pred].
    rewrite lookup_total_app_l by (by rewrite length_map).
    change (map fst ins) with (fst <$> ins).
    by rewrite (list_lookup_total_fmap fst ins j) by lia.
  - rewrite lookup_total_cons_ne_0 by lia. cbn [Nat.pred].
    rewrite lookup_total_app_l by (by rewrite length_map).
    change (map snd ins) with (snd <$> ins).
    by rewrite (list_lookup_total_fmap snd ins j) by lia.
Qed.

(** ** What IsForwardAngle prints *)

Lemma IsForwardAngle_exact (n theta : complex) (l : bool) (e : list Message) :
  let ncostheta := Cmul n (Ccos theta) in
  let star := real (Cmul n (Ccos (Cconj theta))) in
  let low := Dmul (D_of_Z (-100)) EPSILON in
  let high := Dmul (D_of_Z 100) EPSILON in
  let unclear (c : bool) := if c then [MsgUnclear n theta] else [] in
  IsForwardAngle n theta (MkWorld l e) =
  (IsForwardAngle_answer n theta,
   MkWorld l
     (e ++ (if Dlt (Dmul (real n) (imag n)) (D_of_Z 0)
            then [MsgGain n theta] else []) ++
      ((if IsForwardAngle_answer n theta
        then unclear (Dle (imag ncostheta) low) ++
             unclear (Dle (real ncostheta) low) ++
             unclear (Dle star low)
        else unclear (Dge (imag ncostheta) high) ++
             unclear (Dge (real ncostheta) high) ++
             unclear (Dlt star high)) ++ []))).
Proof.
  cbv zeta. unfold IsForwardAngle, IsForwardAngle_answer. cbv zeta.
  set (ans := if Dgt _ _ then _ else _).
  match goal with
  | |- ?m (MkWorld l e) = (?a, MkWorld l (e ++ ?x)) =>
      change (run_with m (MkWorld l e) a l x)
  end.
  destruct ans;
    (eapply run_bind; [apply run_when|];
     eapply run_bind;
       [ eapply run_bind; [apply run_when|];
         eapply run_bind; [apply run_when|]; apply run_when
       | apply run_ret ]).
Qed.

(** X5.  [IsForwardAngle] never touches the latch and only appends to the
    log, at most four messages.  It prints the gain message exactly when
    [n.real() * n.imag() < 0].  It prints "It's not clear ..." exactly
    when, having answered yes, one of [Im(n cos th)], [Re(n cos th)],
    [Re(n cos(conj th))] is at or below [-100 eps], or, having answered
    no, [Im(n cos th)] or [Re(n cos th)] is at or above [100 eps] or
    [Re(n cos(conj th))] is below [100 eps]. *)
Theorem IsForwardAngle_printing (n theta : complex) (w : World) :
  let m := IsForwardAngle n theta in
  let ncostheta := Cmul n (Ccos theta) in
  let star := real (Cmul n (Ccos (Cconj theta))) in
  let low := Dmul (D_of_Z (-100)) EPSILON in
  let high := Dmul (D_of_Z 100) EPSILON in
  opacity_warning (snd (m w)) = opacity_warning w /\
  errors (snd (m w)) = errors w ++ printed m w /\
  length (printed m w) <= 4 /\
  (In (MsgGain n theta) (printed m w) <->
     Dlt (Dmul (real n) (imag n)) (D_of_Z 0) = true) /\
  (In (MsgUnclear n theta) (printed m w) <->
     if fst (m w)
     then Dle (imag ncostheta) low = true \/ Dle (real ncostheta) low = true \/
          Dle star low = true
     else Dge (imag ncostheta) high = true \/
          Dge (real ncostheta) high = true \/ Dlt star high = true).
Proof.
  cbv zeta. destruct w as [l e]. unfold printed.
  rewrite IsForwardAngle_exact. cbn [fst snd opacity_warning errors].
  rewrite drop_app_length.
  destruct (Dlt (Dmul (real n) (imag n)) (D_of_Z 0));
    destruct (IsForwardAngle_answer n theta);
    repeat match goal with
           | |- context [if ?c then [MsgUnclear n theta] else []] =>
               destruct c
           end;
    cbn [app length In];
    (split; [reflexivity|]); (split; [reflexivity|]); (split; [lia|]);
    split; split; intros H;
    repeat match goal with
           | H : _ \/ _ |- _ => destruct H
           | H : False |- _ => destruct H
           | H : _ = _ |- _ => discriminate H
           end;
    auto 10.
Qed.

(** ** PrintLayers *)

Lemma for_loop_append {A} (g : nat -> list A) (lo n : nat) (l : list A) :
  for_loop lo n (fun i out => out ++ g i) l = l ++ concat (map g (seq lo n)).
Proof.
  revert lo l. induction n as [|n IH]; intros lo l; cbn [for_loop seq map concat].
  - by rewrite app_nil_r.
  - rewrite IH. by rewrite <- app_assoc.
Qed.

Lemma lookup_concat_pairs {A} (a b : nat -> A) (lo n k : nat) :
  k < n ->
  concat (map (fun i => [a i; b i]) (seq lo n)) !! (2 * k)%nat
    = Some (a (lo + k)%nat) /\
  concat (map (fun i => [a i; b i]) (seq lo n)) !! (2 * k + 1)%nat
    = Some (b (lo + k)%nat).
Proof.
  revert lo k. induction n as [|n IH]; intros lo k Hk; [lia|].
  cbn [seq map concat app]. destruct k as [|k].
  - rewrite Nat.add_0_r. split; reflexivity.
  - replace (2 * S k)%nat with (S (S (2 * k))) by lia.
    replace (S (S (2 * k)) + 1)%nat with (S (S (2 * k + 1))) by lia.
    cbn [lookup list_lookup].
    destruct (IH (S lo) k) as [H1 H2]; [lia|].
    replace (lo + S k)%nat with (S lo + k)%nat by lia.
    split; assumption.
Qed.

Lemma length_concat_pairs {A} (a b : nat -> A) (lo n : nat) :
  length (concat (map (fun i => [a i; b i]) (seq lo n))) = (2 * n)%nat.
Proof.
  revert lo. induction n as [|n IH]; intros lo; cbn [seq map concat app length];
    [done|]. rewrite IH. lia.
Qed.

(** X6.  [PrintLayers] writes [2 N + 1] lines: a rule before the line of
    every layer and one more after the last; the line of layer [i], in
    stack order, shows [i], the index of the layer at [lambda] and its
    thickness divided by the unit [nm]. *)
Theorem PrintLayers_lines (nm : Double_t) (self : AMultilayer)
    (lambda : Double_t) (i : nat) :
  i < num_layers self ->
  let out := PrintLayers nm self lambda in
  let N := num_layers self in
  length out = (2 * N + 1)%nat /\
  out !! (2 * i)%nat = Some LineRule /\
  out !! (2 * i + 1)%nat =
    Some (LineLayer i
            (GetComplexRefractiveIndex (fRefractiveIndexList self !!! i) lambda)
            (Ddiv (fThicknessList self !!! i) nm)) /\
  out !! (2 * N)%nat = Some LineRule.
Proof.
  intros Hi. cbv zeta. unfold PrintLayers. cbv zeta.
  unfold num_layers in *. set (N := length (fRefractiveIndexList self)) in *.
  rewrite (for_loop_append
             (fun i => [LineRule;
                        LineLayer i
                          (GetComplexRefractiveIndex
                             (fRefractiveIndexList self !!! i) lambda)
                          (Ddiv (fThicknessList self !!! i) nm)])).
  rewrite app_nil_l.
  pose proof (length_concat_pairs (fun _ => LineRule)
                (fun i => LineLayer i
                   (GetComplexRefractiveIndex
                      (fRefractiveIndexList self !!! i) lambda)
                   (Ddiv (fThicknessList self !!! i) nm)) 0 N) as Hlen.
  destruct (lookup_concat_pairs (fun _ => LineRule)
              (fun i => LineLayer i
                 (GetComplexRefractiveIndex
                    (fRefractiveIndexList self !!! i) lambda)
                 (Ddiv (fThicknessList self !!! i) nm)) 0 N i Hi) as [H1 H2].
  cbv beta in *. cbn [Nat.add] in H1, H2.
  repeat split.
  - rewrite length_app, Hlen. cbn [length]. lia.
  - rewrite lookup_app_l by lia. exact H1.
  - rewrite lookup_app_l by lia. exact H2.
  - rewrite lookup_app_r by lia. rewrite Hlen.
    by replace (2 * N - 2 * N)%nat with 0%nat by lia.
Qed.

End MoreProperties.

(** * Exact arithmetic: further runs *)

Module ExactOptics.

Import Exact ExactRuns.
Local Open Scope R_scope.

(** ** The further properties at concrete stacks *)

(** X1 at the opaque aluminium film. *)
Lemma opacity_warning_exactly_at_opaque_film :
  let m := CoherentTMM opaque_film kS (rc 0) (Fin 500) in
  (2 <= num_layers opaque_film)%nat /\
  (count_opacity (printed m initial_world) <= 1)%nat /\
  (count_input (printed m initial_world) <= 1)%nat /\
  errors (snd (m initial_world)) =
    errors initial_world ++ printed m initial_world.
Proof.
  assert (HN : (2 <= num_layers opaque_film)%nat) by (vm_compute; lia).
  destruct (opacity_warning_exactly opaque_film kS (rc 0) (Fin 500)
              initial_world HN) as (_ & _ & H1 & H2 & H3).
  cbv zeta. split; [exact HN|]. split; [exact H1|]. split; [exact H2|exact H3].
Defined.

(** X2 at the coated glass: the thicknesses stored for the two ends are
    replaced by 0 and 7. *)
Lemma solve_reads_only_at_coated_glass :
  let ns := [air; MgF2; glass] in
  let ds : list Double_t := [PInf; Fin 100; PInf] in
  let ds' : list Double_t := [Fin 0; Fin 100; Fin 7] in
  (length ns = length ns /\
   (forall i, (i < length ns)%nat ->
      GetComplexRefractiveIndex (ns !!! i) (Fin 550) =
      GetComplexRefractiveIndex (ns !!! i) (Fin 550)) /\
   (forall i, (1 <= i <= length ns - 2)%nat -> ds !!! i = ds' !!! i)) /\
  CoherentTMM (MkMultilayer ns ds) kS (rc 0) (Fin 550) initial_world =
  CoherentTMM (MkMultilayer ns ds') kS (rc 0) (Fin 550) initial_world.
Proof.
  cbv zeta.
  assert (H1 : length [air; MgF2; glass] = length [air; MgF2; glass])
    by reflexivity.
  assert (H2 : forall i, (i < length [air; MgF2; glass])%nat ->
             GetComplexRefractiveIndex ([air; MgF2; glass] !!! i) (Fin 550) =
             GetComplexRefractiveIndex ([air; MgF2; glass] !!! i) (Fin 550))
    by reflexivity.
  assert (H3 : forall i, (1 <= i <= length [air; MgF2; glass] - 2)%nat ->
             ([PInf; Fin 100; PInf] : list Double_t) !!! i =
             ([Fin 0; Fin 100; Fin 7] : list Double_t) !!! i).
  { intros i Hi. simpl in Hi. assert (i = 1%nat) as -> by lia. reflexivity. }
  split; [split; [exact H1|split; [exact H2|exact H3]]|].
  exact (solve_reads_only [air; MgF2; glass] [air; MgF2; glass]
           [PInf; Fin 100; PInf] [Fin 0; Fin 100; Fin 7] kS (rc 0) (Fin 550)
           initial_world H1 H2 H3).
Defined.

(** X3 in exact arithmetic, at the film of the opaque stack. *)
Lemma clamped_phase_bounded_at_opaque_film :
  let L := fst (CoherentTMM_locals opaque_film kS (rc 0) (Fin 500)
                                   initial_world) in
  ((forall x, Dgt (imag (DCadd x (Cmake (D_of_Z 0) (D_of_Z 35)))) (D_of_Z 35)
              = false) /\
   (1 <= 1 <= num_layers opaque_film - 2)%nat) /\
  Dgt (imag (L_delta L !!! 1%nat)) (D_of_Z 35) = false.
Proof.
  assert (Hlaw : forall x : xreal,
            Dgt (imag (DCadd x (Cmake (D_of_Z 0) (D_of_Z 35)))) (D_of_Z 35)
            = false).
  { intros x. xops. cbn [im xdcadd xlt]. apply Rltb_false. lra. }
  assert (Hi : (1 <= 1 <= num_layers opaque_film - 2)%nat)
    by (vm_compute; lia).
  cbv zeta. split; [split; [exact Hlaw|exact Hi]|].
  exact (clamped_phase_bounded opaque_film kS (rc 0) (Fin 500) initial_world
           1 Hlaw Hi).
Defined.

(** X4 at the coated glass. *)
Lemma layers_in_insertion_order_at_coated_glass :
  let ins := [(MgF2, Fin 100)] in
  let s := build air glass ins in
  (0 < length ins)%nat /\
  num_layers s = 3%nat /\
  fRefractiveIndexList s !!! 1%nat = MgF2 /\
  fThicknessList s !!! 1%nat = Fin 100.
Proof.
  assert (Hj : (0 < length [(MgF2, Fin 100)])%nat) by (vm_compute; lia).
  cbv zeta. split; [exact Hj|].
  exact (layers_in_insertion_order air glass [(MgF2, Fin 100)] 0 Hj).
Defined.

(** X6 at the coated glass, for the film. *)
Lemma PrintLayers_lines_at_coated_glass :
  let out := PrintLayers (Fin 1) coated_glass (Fin 550) in
  (1 < num_layers coated_glass)%nat /\
  length out = 7%nat /\
  out !! 3%nat = Some (LineLayer 1 (rc (69 / 50)) (xdiv (Fin 100) (Fin 1))).
Proof.
  assert (Hi : (1 < num_layers coated_glass)%nat) by (vm_compute; lia).
  destruct (PrintLayers_lines (AR := exact_arithmetic) (Fin 1) coated_glass (Fin 550) 1 Hi)
    as (H1 & _ & H2 & _).
  cbv zeta. split; [exact Hi|]. split; [exact H1|exact H2].
Defined.

(** ** Two layers of real index, lit at a real angle *)

(** Evaluate the vector operations on a two-layer stack. *)
Ltac lists2 :=
  cbn [for_loop for_loopM Nat.sub Nat.add replicate insert list_insert
       lookup_total list_lookup_total fst snd length app push_back back
       front take drop fRefractiveIndexList fThicknessList two_layer
       build fold_left AMultilayer_new InsertLayer
       insert_before_end GetComplexRefractiveIndex
       constant_index negb set_front set_back].

Lemma n_list_of_two_layer (n0 n1 : R) (lam : xreal) :
  n_list_of (two_layer n0 n1) lam = [rc n0; rc n1].
Proof. reflexivity. Qed.

Lemma rc_sin (x : R) : xcsin (rc x) = rc (sin x).
Proof.
  unfold xcsin, finite2, rc; cbn. rewrite cosh_0, sinh_0.
  f_equal; f_equal; lra.
Qed.

Lemma rc_cos (x : R) : xccos (rc x) = rc (cos x).
Proof.
  unfold xccos, finite2, rc; cbn. rewrite cosh_0, sinh_0.
  f_equal; f_equal; lra.
Qed.

Lemma IsForwardAngle_real (n th : R) (w : World) :
  0 < n -> 0 < cos th -> IsForwardAngle (rc n) (rc th) w = (true, w).
Proof.
  intros Hn Hc. pose proof EPSILON_pos as He. destruct w as [l e].
  assert (Hp : 0 < n * cos th) by nra.
  unfold IsForwardAngle. xops.
  rewrite rc_conj, rc_cos, rc_mul. cbn [re im rc xmul xabs xlt xle].
  replace (n * 0) with 0 by lra.
  rewrite Rabs_R0. decide_cmp. reflexivity.
Qed.

Lemma input_tests_real (n th : R) (rest : list xcomplex) (w : World) :
  0 < n -> 0 < cos th -> input_tests (rc n :: rest) (rc th) w = (tt, w).
Proof.
  intros Hn Hc. pose proof EPSILON_pos as He.
  unfold input_tests. xops. lists2.
  rewrite rc_sin, rc_mul. cbn [re im rc xmul xabs xlt xle].
  rewrite Rabs_R0. decide_cmp.
  unfold bind. rewrite IsForwardAngle_real by lra. reflexivity.
Qed.

Lemma sqrt_sq_pos (x : R) : 0 <= x -> sqrt (x * x + 0 * 0) = x.
Proof. intros H. replace (x * x + 0 * 0) with (x * x) by lra. by apply sqrt_square. Qed.

Lemma rc_asin_inside (y : R) : -1 <= y <= 1 -> xcasin (rc y) = rc (asin y).
Proof.
  intros Hy. unfold xcasin, finite2, rc; cbn.
  rewrite (sqrt_sq_pos (y + 1)) by lra.
  replace ((y - 1) * (y - 1) + 0 * 0) with ((1 - y) * (1 - y)) by lra.
  rewrite sqrt_square by lra.
  replace ((y + 1 - (1 - y)) / 2) with y by lra.
  replace ((y + 1 + (1 - y)) / 2) with 1 by lra.
  replace (1 * 1 - 1) with 0 by lra.
  rewrite sqrt_0. replace (1 + 0) with 1 by lra. rewrite ln_1.
  by rewrite Rltb_false by lra.
Qed.

Lemma rc_asin_outside (x : R) :
  1 <= x -> xcasin (rc x) = MkC (Fin (PI / 2)) (Fin (evanescent x)).
Proof.
  intros Hx. unfold xcasin, finite2, rc, evanescent; cbn.
  rewrite (sqrt_sq_pos (x + 1)), (sqrt_sq_pos (x - 1)) by lra.
  replace ((x + 1 - (x - 1)) / 2) with 1 by lra.
  replace ((x + 1 + (x - 1)) / 2) with x by lra.
  rewrite asin_1. by rewrite Rltb_false by lra.
Qed.

Lemma sinh_evanescent (x : R) : 1 <= x -> 0 <= sinh (evanescent x).
Proof.
  intros Hx. unfold sinh, evanescent.
  assert (Hs : 0 <= sqrt (x * x - 1)) by apply sqrt_pos.
  rewrite exp_Ropp, exp_ln by lra.
  assert (Hi : / (x + sqrt (x * x - 1)) <= / 1)
    by (apply Rinv_le_contravar; lra).
  rewrite Rinv_1 in Hi. lra.
Qed.

(** Arithmetic on finite complex numbers. *)
Local Abbreviation fc a b := (MkC (Fin a) (Fin b)).

Lemma fc_eq (a b c d : R) : a = c -> b = d -> fc a b = fc c d.
Proof. by intros -> ->. Qed.

Lemma fc_mul (a b c d : R) :
  xcmul (fc a b) (fc c d) = fc (a * c - b * d) (a * d + b * c).
Proof. unfold xcmul; cbn. apply fc_eq; lra. Qed.

Lemma fc_add (a b c d : R) : xcadd (fc a b) (fc c d) = fc (a + c) (b + d).
Proof. reflexivity. Qed.

Lemma fc_sub (a b c d : R) : xcsub (fc a b) (fc c d) = fc (a - c) (b - d).
Proof. unfold xcsub; cbn. apply fc_eq; lra. Qed.

Lemma fc_div (a b c d : R) :
  c * c + d * d <> 0 ->
  xcdiv (fc a b) (fc c d) =
  fc ((a * c + b * d) / (c * c + d * d)) ((b * c - a * d) / (c * c + d * d)).
Proof.
  intros Hd. unfold xcdiv; cbn. rewrite !Reqb_false by exact Hd.
  apply fc_eq; field; exact Hd.
Qed.

Lemma fc_dcmul (x a b : R) : xdcmul (Fin x) (fc a b) = fc (x * a) (x * b).
Proof. reflexivity. Qed.

Lemma fc_abs_sq (a b : R) :
  xmul (xcabs (fc a b)) (xcabs (fc a b)) = Fin (a * a + b * b).
Proof. unfold xcabs; cbn. f_equal. apply sqrt_sqrt. nra. Qed.

Lemma fc_abs_of_sq (a b : R) :
  xcabs (xcmul (fc a b) (fc a b)) = Fin (a * a + b * b).
Proof.
  rewrite fc_mul. unfold xcabs; cbn. f_equal.
  replace ((a * a - b * b) * (a * a - b * b) + (a * b + b * a) * (a * b + b * a))
    with ((a * a + b * b) * (a * a + b * b)) by ring.
  apply sqrt_square. nra.
Qed.

(** With two layers the product of the inner matrices is empty, and the
    amplitudes of the stack are the Fresnel coefficients of its one
    interface. *)
Lemma two_layer_amplitudes (self : AMultilayer) (pol : EPolarization)
    (th_i : xcomplex) (n_list th_list kz delta : list xcomplex)
    (tr ti rr ri : R) (z1 z2 : xcomplex) :
  length (fRefractiveIndexList self) = 2%nat ->
  fresnel 2 pol n_list th_list = ([fc tr ti; z1], [fc rr ri; z2]) ->
  tr * tr + ti * ti <> 0 ->
  let L := amplitudes_and_power self pol th_i n_list th_list kz delta in
  L_r L = fc rr ri /\ L_t L = fc tr ti.
Proof.
  intros HN HF Ht. cbv zeta. unfold amplitudes_and_power. rewrite HN, HF.
  unfold M_list_of, Mtilde_product, Mdiv, Mmul. lists2.
  cbn [Get00 Get01 Get10 Get11 L_r L_t].
  xops. unfold xdcdiv.
  rewrite !fc_div by lra. rewrite !fc_mul, !fc_add.
  set (D := tr * tr + ti * ti) in *.
  assert (HD : 0 < D) by (unfold D in *; nra).
  match goal with
  | |- context [xcdiv _ (fc ?a ?b)] =>
      assert (Hab : a * a + b * b = / D) by (unfold D; field; exact Ht)
  end.
  rewrite !fc_div by (rewrite Hab; apply Rinv_neq_0_compat; lra).
  rewrite Hab.
  split; apply fc_eq; unfold D; field; exact Ht.
Qed.

Lemma rc_fc_mul (a c d : R) : xcmul (rc a) (fc c d) = fc (a * c) (a * d).
Proof. unfold rc. rewrite fc_mul. apply fc_eq; lra. Qed.

Lemma fc_conj (a b : R) : xcconj (fc a b) = fc a (- b).
Proof. reflexivity. Qed.

(** The Fresnel coefficients of the one interface of a two-layer stack of
    real indices lit at a real angle, the cosine of the transmitted angle
    being [u + v i]. *)
Lemma fresnel_two_layer_S (n0 n1 th0 u v : R) (th1 : xcomplex) :
  xccos th1 = fc u v ->
  let a := n0 * cos th0 in
  let p := n1 * u in
  let q := n1 * v in
  let D := (a + p) * (a + p) + q * q in
  D <> 0 ->
  fresnel 2 kS [rc n0; rc n1] [rc th0; th1] =
  ([fc (2 * a * (a + p) / D) (- (2 * a * q) / D); C_of_Z 0],
   [fc ((a * a - p * p - q * q) / D) (- (2 * a * q) / D); C_of_Z 0]).
Proof.
  intros Hc a p q D HD. unfold fresnel. lists2. xops. lists2.
  rewrite rc_cos, Hc, rc_mul, rc_fc_mul, rc_dcmul.
  fold a p q. unfold rc. rewrite fc_add, fc_sub.
  replace (0 + q) with q by lra.
  rewrite !fc_div by exact HD. fold D.
  f_equal; f_equal; apply fc_eq; unfold D; field; exact HD.
Qed.

Lemma fresnel_two_layer_P (n0 n1 th0 u v : R) (th1 : xcomplex) :
  xccos th1 = fc u v ->
  let a := n1 * cos th0 in
  let p := n0 * u in
  let q := n0 * v in
  let D := (a + p) * (a + p) + q * q in
  D <> 0 ->
  fresnel 2 kP [rc n0; rc n1] [rc th0; th1] =
  ([fc (2 * (n0 * cos th0) * (a + p) / D) (- (2 * (n0 * cos th0) * q) / D);
    C_of_Z 0],
   [fc ((a * a - p * p - q * q) / D) (- (2 * a * q) / D); C_of_Z 0]).
Proof.
  intros Hc a p q D HD. unfold fresnel. lists2. xops. lists2.
  rewrite rc_cos, Hc, !rc_mul, rc_fc_mul, rc_dcmul.
  fold a p q. unfold rc. rewrite fc_add, fc_sub.
  replace (0 + q) with q by lra.
  rewrite !fc_div by exact HD. fold D.
  f_equal; f_equal; apply fc_eq; unfold D; field; exact HD.
Qed.

(** The reflectance and the transmittance of a two-layer stack, in the
    terms of the source: [a] and [p + q i] are the two summands of the
    denominator of the Fresnel coefficients. *)
Lemma two_layer_powers (pol : EPolarization) (n0 n1 th0 u v : R)
    (th1 : xcomplex) (kz delta : list xcomplex) :
  xccos th1 = fc u v ->
  0 < n0 -> 0 < n1 -> 0 < cos th0 -> 0 <= u ->
  let a := match pol with kS => n0 * cos th0 | kP => n1 * cos th0 end in
  let p := match pol with kS => n1 * u | kP => n0 * u end in
  let q := match pol with kS => n1 * v | kP => n0 * v end in
  let D := (a + p) * (a + p) + q * q in
  let L := amplitudes_and_power (two_layer n0 n1) pol (rc th0)
             [rc n0; rc n1] [rc th0; th1] kz delta in
  L_reflectance L = Fin (((a - p) * (a - p) + q * q) / D) /\
  L_transmittance L = Fin (4 * a * p / D).
Proof.
  intros Hc Hn0 Hn1 Hc0 Hu a p q D L.
  assert (Ha : 0 < a) by (destruct pol; unfold a; nra).
  assert (Hp : 0 <= p) by (destruct pol; unfold p; nra).
  assert (HD : 0 < D) by (unfold D; nra).
  assert (Hi : 0 < n0 * cos th0) by nra.
  assert (HN : length (fRefractiveIndexList (two_layer n0 n1)) = 2%nat)
    by reflexivity.
  destruct pol.
  - pose proof (fresnel_two_layer_S n0 n1 th0 u v th1 Hc) as HF.
    cbv zeta in HF. fold a p q D in HF. specialize (HF ltac:(lra)).
    destruct (two_layer_amplitudes (two_layer n0 n1) kS (rc th0)
                [rc n0; rc n1] [rc th0; th1] kz delta _ _ _ _ _ _ HN HF)
      as [Hr Ht].
    { assert (H4 : 2 * a * (a + p) / D <> 0).
      { apply Rgt_not_eq. apply Rdiv_lt_0_compat; nra. }
      nra. }
    fold L in Hr, Ht. split.
    + change (L_reflectance L) with (xmul (xcabs (L_r L)) (xcabs (L_r L))).
      rewrite Hr, fc_abs_sq. f_equal. unfold D. field. fold D. lra.
    + change (L_transmittance L)
        with (xmul (xcabs (xcmul (L_t L) (L_t L)))
                (xdiv (re (xcmul (rc n1) (xccos th1)))
                      (re (xcmul (rc n0) (xccos (rc th0)))))).
      rewrite Ht, fc_abs_of_sq, Hc, rc_cos, rc_mul, rc_fc_mul.
      cbn [re rc]. rewrite xdiv_Fin by lra. cbn [xmul]. f_equal.
      fold a p. unfold D. field. fold D. lra.
  - pose proof (fresnel_two_layer_P n0 n1 th0 u v th1 Hc) as HF.
    cbv zeta in HF. fold a p q D in HF. specialize (HF ltac:(lra)).
    destruct (two_layer_amplitudes (two_layer n0 n1) kP (rc th0)
                [rc n0; rc n1] [rc th0; th1] kz delta _ _ _ _ _ _ HN HF)
      as [Hr Ht].
    { assert (H4 : 2 * (n0 * cos th0) * (a + p) / D <> 0).
      { apply Rgt_not_eq. apply Rdiv_lt_0_compat; nra. }
      nra. }
    fold L in Hr, Ht. split.
    + change (L_reflectance L) with (xmul (xcabs (L_r L)) (xcabs (L_r L))).
      rewrite Hr, fc_abs_sq. f_equal. unfold D. field. fold D. lra.
    + change (L_transmittance L)
        with (xmul (xcabs (xcmul (L_t L) (L_t L)))
                (xdiv (re (xcmul (rc n1) (xcconj (xccos th1))))
                      (re (xcmul (rc n0) (xcconj (xccos (rc th0))))))).
      rewrite Ht, fc_abs_of_sq, Hc, rc_cos, rc_conj, fc_conj, rc_mul,
        rc_fc_mul.
      cbn [re rc]. rewrite xdiv_Fin by lra. cbn [xmul]. f_equal.
      unfold D, a, p, q. field. fold a p q D. split; lra.
Qed.

Lemma cos_asin_pos (x : R) : -1 < x < 1 -> 0 < cos (asin x).
Proof.
  intros Hx. rewrite cos_asin by lra. apply sqrt_lt_R0. unfold Rsqr. nra.
Qed.

(** Below the critical angle the transmitted angle is real and forward:
    nothing is printed. *)
Lemma ListSnell_refracted (n0 n1 th0 : R) (w : World) :
  0 < n0 -> 0 < n1 -> 0 <= th0 < PI / 2 -> n0 * sin th0 < n1 ->
  ListSnell (two_layer n0 n1) (rc th0) [rc n0; rc n1] [] w =
  ([rc th0; rc (asin (n0 * sin th0 / n1))], w).
Proof.
  intros Hn0 Hn1 Hth Hx.
  assert (Hs : 0 <= sin th0) by (apply sin_ge_0; lra).
  assert (Hc : 0 < cos th0) by (apply cos_gt_0; lra).
  assert (Hx1 : -1 < n0 * sin th0 / n1 < 1).
  { split.
    - apply Rlt_le_trans with 0; [lra|].
      apply Rmult_le_pos; [nra|]. apply Rlt_le, Rinv_0_lt_compat. lra.
    - apply Rmult_lt_reg_r with n1; [lra|]. field_simplify; lra. }
  unfold ListSnell. xops. lists2.
  rewrite rc_sin, !rc_mul, !rc_div by lra.
  replace (n0 * sin th0 / n0) with (sin th0) by (field; lra).
  rewrite !rc_asin_inside by (try lra; pose proof (SIN_bound th0); lra).
  rewrite asin_sin by lra.
  unfold bind. rewrite IsForwardAngle_real by lra. lists2.
  rewrite IsForwardAngle_real by (try lra; by apply cos_asin_pos).
  reflexivity.
Qed.

(** For a real index [n > 0] the angle [PI/2 + l i] with [sinh l >= 0]
    is not forward, and the source prints its consistency error. *)
Lemma IsForwardAngle_beyond_critical (n l : R) (lt : bool)
    (e : list Message) :
  0 < n -> 0 <= sinh l ->
  IsForwardAngle (rc n) (fc (PI / 2) l) (MkWorld lt e) =
  (false, MkWorld lt (e ++ [MsgUnclear (rc n) (fc (PI / 2) l)])).
Proof.
  intros Hn Hl. pose proof EPSILON_pos as He.
  assert (Hp : 0 <= n * sinh l) by nra.
  unfold IsForwardAngle. xops.
  unfold xcconj, xccos, finite2. cbn [re im xneg]. rewrite !rc_fc_mul.
  cbn [re im rc xmul xadd xsub xneg xabs xlt xle].
  rewrite sin_PI2, cos_PI2.
  replace (n * (0 * cosh l)) with 0 by lra.
  replace (n * (0 * cosh (- l))) with 0 by lra.
  replace (n * - (1 * sinh l)) with (- (n * sinh l)) by lra.
  rewrite Rabs_Ropp, Rabs_pos_eq by lra.
  destruct (Rlt_dec (100 * / 2 ^ 52) (n * sinh l)) as [Hbig|Hsmall].
  - rewrite (Rltb_true _ _ Hbig). decide_cmp.
    unfold bind, when, ret, Error. cbn [opacity_warning errors]. reflexivity.
  - rewrite (Rltb_false _ _ Hsmall). decide_cmp.
    unfold bind, when, ret, Error. cbn [opacity_warning errors]. reflexivity.
Qed.

(** At and beyond the critical angle the transmitted angle is
    [PI/2 + l i]; it is found not forward, the error is printed once and
    the angle is replaced by [PI - (PI/2 + l i)]. *)
Lemma ListSnell_reflected (n0 n1 th0 : R) (lt : bool) (e : list Message) :
  0 < n0 -> 0 < n1 -> 0 <= th0 < PI / 2 -> n1 <= n0 * sin th0 ->
  let l := evanescent (n0 * sin th0 / n1) in
  ListSnell (two_layer n0 n1) (rc th0) [rc n0; rc n1] [] (MkWorld lt e) =
  ([rc th0; fc (PI + - (PI / 2)) (- l)],
   MkWorld lt (e ++ [MsgUnclear (rc n1) (fc (PI / 2) l)])).
Proof.
  intros Hn0 Hn1 Hth Hx l.
  assert (Hc : 0 < cos th0) by (apply cos_gt_0; lra).
  assert (Hx1 : 1 <= n0 * sin th0 / n1).
  { apply Rmult_le_reg_r with n1; [lra|]. field_simplify; lra. }
  unfold ListSnell. xops. lists2.
  rewrite rc_sin, !rc_mul, !rc_div by lra.
  replace (n0 * sin th0 / n0) with (sin th0) by (field; lra).
  rewrite rc_asin_inside by (pose proof (SIN_bound th0); lra).
  rewrite rc_asin_outside by exact Hx1. fold l.
  rewrite asin_sin by lra.
  unfold bind. rewrite IsForwardAngle_real by lra. lists2.
  rewrite IsForwardAngle_beyond_critical
    by (try lra; by apply sinh_evanescent).
  lists2. reflexivity.
Qed.

(** A solve of a two-layer stack of real indices at a real forward
    angle, from the angles that [ListSnell] returns. *)
Lemma CoherentTMM_two_layer (pol : EPolarization) (n0 n1 th0 u v : R)
    (th1 : xcomplex) (lam : xreal) (w w' : World) :
  0 < n0 -> 0 < n1 -> 0 < cos th0 -> 0 <= u ->
  ListSnell (two_layer n0 n1) (rc th0) [rc n0; rc n1] [] w =
    ([rc th0; th1], w') ->
  xccos th1 = fc u v ->
  let a := match pol with kS => n0 * cos th0 | kP => n1 * cos th0 end in
  let p := match pol with kS => n1 * u | kP => n0 * u end in
  let q := match pol with kS => n1 * v | kP => n0 * v end in
  let D := (a + p) * (a + p) + q * q in
  CoherentTMM (two_layer n0 n1) pol (rc th0) lam w =
  (MkOutputs (Some (Fin (((a - p) * (a - p) + q * q) / D)))
             (Some (Fin (4 * a * p / D))), w').
Proof.
  intros Hn0 Hn1 Hc0 Hu HLS Hc a p q D.
  unfold CoherentTMM, CoherentTMM_locals. cbv zeta.
  rewrite n_list_of_two_layer. unfold bind.
  rewrite input_tests_real by lra. rewrite HLS.
  change (length (fRefractiveIndexList (two_layer n0 n1))) with 2%nat.
  unfold clamp_opaque. cbn [for_loopM Nat.sub]. unfold ret.
  match goal with
  | |- context [amplitudes_and_power _ _ _ _ _ ?kz ?d] =>
      destruct (two_layer_powers pol n0 n1 th0 u v th1 kz d
                  Hc Hn0 Hn1 Hc0 Hu) as [-> ->]
  end.
  reflexivity.
Qed.

Lemma CoherentTMM_refracted (pol : EPolarization) (n0 n1 th0 : R)
    (lam : xreal) (w : World) :
  0 < n0 -> 0 < n1 -> 0 <= th0 < PI / 2 -> n0 * sin th0 < n1 ->
  let u := cos (asin (n0 * sin th0 / n1)) in
  let a := match pol with kS => n0 * cos th0 | kP => n1 * cos th0 end in
  let p := match pol with kS => n1 * u | kP => n0 * u end in
  0 < u /\
  CoherentTMM (two_layer n0 n1) pol (rc th0) lam w =
  (MkOutputs (Some (Fin ((a - p) * (a - p) / ((a + p) * (a + p)))))
             (Some (Fin (4 * a * p / ((a + p) * (a + p))))), w).
Proof.
  intros Hn0 Hn1 Hth Hx u a p.
  assert (Hs : 0 <= sin th0) by (apply sin_ge_0; lra).
  assert (Hc : 0 < cos th0) by (apply cos_gt_0; lra).
  assert (Hx1 : -1 < n0 * sin th0 / n1 < 1).
  { split.
    - apply Rlt_le_trans with 0; [lra|].
      apply Rmult_le_pos; [nra|]. apply Rlt_le, Rinv_0_lt_compat. lra.
    - apply Rmult_lt_reg_r with n1; [lra|]. field_simplify; lra. }
  assert (Hu : 0 < u) by (by apply cos_asin_pos).
  split; [exact Hu|].
  rewrite (CoherentTMM_two_layer pol n0 n1 th0 u 0 _ lam w w Hn0 Hn1 Hc
             ltac:(lra)
             (ListSnell_refracted n0 n1 th0 w Hn0 Hn1 Hth Hx)
             (rc_cos _)).
  fold a p.
  assert (Hap : 0 < a + p) by (destruct pol; unfold a, p; nra).
  do 2 f_equal; f_equal; f_equal; destruct pol; field; lra.
Qed.

Lemma CoherentTMM_reflected (pol : EPolarization) (n0 n1 th0 : R)
    (lam : xreal) (lt : bool) (e : list Message) :
  0 < n0 -> 0 < n1 -> 0 <= th0 < PI / 2 -> n1 <= n0 * sin th0 ->
  let l := evanescent (n0 * sin th0 / n1) in
  CoherentTMM (two_layer n0 n1) pol (rc th0) lam (MkWorld lt e) =
  (MkOutputs (Some (Fin 1)) (Some (Fin 0)),
   MkWorld lt (e ++ [MsgUnclear (rc n1) (fc (PI / 2) l)])).
Proof.
  intros Hn0 Hn1 Hth Hx l.
  assert (Hc : 0 < cos th0) by (apply cos_gt_0; lra).
  assert (Hcf : xccos (fc (PI + - (PI / 2)) (- l)) = fc 0 (sinh l)).
  { unfold xccos, finite2. cbn [re im].
    replace (PI + - (PI / 2)) with (PI / 2) by lra.
    rewrite sin_PI2, cos_PI2, sinh_opp. apply fc_eq; lra. }
  rewrite (CoherentTMM_two_layer pol n0 n1 th0 0 (sinh l) _ lam _ _ Hn0 Hn1
             Hc ltac:(lra)
             (ListSnell_reflected n0 n1 th0 lt e Hn0 Hn1 Hth Hx) Hcf).
  set (s := sinh l). set (c := cos th0) in *.
  assert (Ha0 : 0 < n0 * c) by (apply Rmult_lt_0_compat; lra).
  assert (Ha1 : 0 < n1 * c) by (apply Rmult_lt_0_compat; lra).
  assert (H0 : 0 < n0 * c * (n0 * c)) by (by apply Rmult_lt_0_compat).
  assert (H1 : 0 < n1 * c * (n1 * c)) by (by apply Rmult_lt_0_compat).
  pose proof (Rle_0_sqr (n0 * s)) as H2. pose proof (Rle_0_sqr (n1 * s)) as H3.
  unfold Rsqr in H2, H3.
  do 2 f_equal; f_equal; f_equal; destruct pol; field; lra.
Qed.


(** X8.  Total internal reflection.  At and beyond the critical angle,
    [n1 <= n0 sin th0], a solve in exact arithmetic assigns [R = 1] and
    [T = 0] for both polarizations, and on the way prints
    "It's not clear ..." once, for the evanescent angle
    [PI/2 + i ln (x + sqrt (x^2 - 1))], [x = n0 sin th0 / n1], of the
    last layer; the latch is not touched. *)
Theorem total_internal_reflection (pol : EPolarization) (n0 n1 th0 : R)
    (lam : xreal) (w : World) :
  0 < n0 -> 0 < n1 -> 0 <= th0 < PI / 2 -> n1 <= n0 * sin th0 ->
  let m := CoherentTMM (two_layer n0 n1) pol (rc th0) lam in
  let x := n0 * sin th0 / n1 in
  fst (m w) = MkOutputs (Some (Fin 1)) (Some (Fin 0)) /\
  printed m w =
    [MsgUnclear (rc n1) (fc (PI / 2) (ln (x + sqrt (x * x - 1))))] /\
  opacity_warning (snd (m w)) = opacity_warning w.
Proof.
  intros Hn0 Hn1 Hth Hx m x. destruct w as [lt e]. unfold printed, m.
  rewrite (CoherentTMM_reflected pol n0 n1 th0 lam lt e Hn0 Hn1 Hth Hx).
  cbn [fst snd errors opacity_warning].
  rewrite drop_app_length. done.
Qed.


(** X10.  The Brewster angle.  For P-polarization, when
    [tan th0 = n1 / n0], written [n0 sin th0 = n1 cos th0], a solve in
    exact arithmetic assigns [R = 0] and [T = 1] and prints nothing. *)
Theorem brewster_angle (n0 n1 th0 : R) (lam : xreal) (w : World) :
  0 < n0 -> 0 < n1 -> 0 <= th0 < PI / 2 ->
  n0 * sin th0 = n1 * cos th0 ->
  CoherentTMM (two_layer n0 n1) kP (rc th0) lam w =
  (MkOutputs (Some (Fin 0)) (Some (Fin 1)), w).
Proof.
  intros Hn0 Hn1 Hth HB.
  assert (Hc : 0 < cos th0) by (apply cos_gt_0; lra).
  assert (Hs : 0 <= sin th0) by (apply sin_ge_0; lra).
  pose proof (sin2_cos2 th0) as H1. unfold Rsqr in H1.
  assert (Hs0 : 0 < sin th0) by nra.
  assert (Hc1 : cos th0 < 1) by nra.
  assert (Hx : n0 * sin th0 < n1) by nra.
  destruct (CoherentTMM_refracted kP n0 n1 th0 lam w Hn0 Hn1 Hth Hx)
    as [Hu ->].
  replace (n0 * sin th0 / n1) with (cos th0) in * by (rewrite HB; field; lra).
  rewrite cos_asin in * by lra. unfold Rsqr in *.
  replace (1 - cos th0 * cos th0) with (sin th0 * sin th0) in * by lra.
  rewrite sqrt_square in * by lra.
  rewrite <- HB.
  do 2 f_equal; f_equal; f_equal; field; nra.
Qed.


(** X8 for glass of index 3 over air at 30 degrees. *)
Lemma total_internal_reflection_at_30_degrees :
  (0 < 3 /\ 0 < 1 /\ 0 <= PI / 6 < PI / 2 /\ 1 <= 3 * sin (PI / 6)) /\
  fst (CoherentTMM (two_layer 3 1) kP (rc (PI / 6)) (Fin 500) initial_world) =
  MkOutputs (Some (Fin 1)) (Some (Fin 0)).
Proof.
  pose proof PI_RGT_0 as HPI.
  assert (H0 : 0 < 3) by lra.
  assert (H1 : 0 < 1) by lra.
  assert (Hth : 0 <= PI / 6 < PI / 2) by lra.
  assert (Hx : 1 <= 3 * sin (PI / 6)) by (rewrite sin_PI6; lra).
  split; [tauto|].
  exact (proj1 (total_internal_reflection kP 3 1 (PI / 6) (Fin 500)
                  initial_world H0 H1 Hth Hx)).
Defined.


(** X10 at air over glass: the Brewster angle is [atan (3/2)]. *)
Lemma brewster_angle_at_air_glass :
  (0 < 1 /\ 0 < 3 / 2 /\ 0 <= atan (3 / 2) < PI / 2 /\
   1 * sin (atan (3 / 2)) = 3 / 2 * cos (atan (3 / 2))) /\
  CoherentTMM (two_layer 1 (3 / 2)) kP (rc (atan (3 / 2))) (Fin 500)
    initial_world =
  (MkOutputs (Some (Fin 0)) (Some (Fin 1)), initial_world).
Proof.
  assert (H0 : 0 < 1) by lra.
  assert (H1 : 0 < 3 / 2) by lra.
  assert (Hth : 0 <= atan (3 / 2) < PI / 2).
  { split; [|apply atan_bound].
    rewrite <- atan_0. apply Rlt_le, atan_increasing. lra. }
  assert (HB : 1 * sin (atan (3 / 2)) = 3 / 2 * cos (atan (3 / 2))).
  { rewrite sin_atan, cos_atan. lra. }
  split; [tauto|].
  exact (brewster_angle 1 (3 / 2) (atan (3 / 2)) (Fin 500) initial_world
           H0 H1 Hth HB).
Defined.

(** ** A single film between two media *)

(** Evaluate the vector operations on a single film. *)
Ltac lists3 :=
  cbn [for_loop for_loopM Nat.sub Nat.add replicate insert list_insert
       lookup_total list_lookup_total fst snd length app push_back back
       front take drop fRefractiveIndexList fThicknessList single_film
       build fold_left AMultilayer_new InsertLayer
       insert_before_end GetComplexRefractiveIndex
       constant_index negb set_front set_back].

Lemma n_list_of_single_film (n0 n1 d n2 : R) (lam : xreal) :
  n_list_of (single_film n0 n1 d n2) lam = [rc n0; rc n1; rc n2].
Proof. reflexivity. Qed.

Lemma rc_cddiv (x lam : R) :
  lam <> 0 -> xcddiv (rc x) (Fin lam) = rc (x / lam).
Proof.
  intros Hl. unfold xcddiv, rc. cbn [re im]. rewrite !xdiv_Fin by exact Hl.
  apply fc_eq; [reflexivity|]. field. exact Hl.
Qed.

Lemma rc_cdmul (x d : R) : xcdmul (rc x) (Fin d) = rc (x * d).
Proof. unfold xcdmul, rc. cbn. apply fc_eq; lra. Qed.

Lemma exp_minus_j (phi : R) :
  xcexp (xcmul (xcneg (fc 0 1)) (rc phi)) = fc (cos phi) (- sin phi).
Proof.
  unfold xcneg. cbn [re im xneg]. rewrite rc_fc_mul || unfold rc.
  rewrite ?fc_mul. unfold xcexp, finite2. cbn [re im].
  replace (- 0 * phi - - (1) * 0) with 0 by lra.
  replace (- 0 * 0 + - (1) * phi) with (- phi) by lra.
  rewrite exp_0, cos_neg, sin_neg. apply fc_eq; lra.
Qed.

Lemma exp_plus_j (phi : R) :
  xcexp (xcmul (fc 0 1) (rc phi)) = fc (cos phi) (sin phi).
Proof.
  unfold rc. rewrite fc_mul. unfold xcexp, finite2. cbn [re im].
  replace (0 * phi - 1 * 0) with 0 by lra.
  replace (0 * 0 + 1 * phi) with phi by lra.
  rewrite exp_0. apply fc_eq; lra.
Qed.

(** The amplitudes of a stack of three layers whose Fresnel coefficients
    and film phase are real. *)
Lemma film_amplitudes (self : AMultilayer) (pol : EPolarization)
    (th_i : xcomplex) (n_list th_list kz : list xcomplex)
    (z0 z2 zt zr : xcomplex) (t0 t1 r0 r1 phi : R) :
  length (fRefractiveIndexList self) = 3%nat ->
  fresnel 3 pol n_list th_list = ([rc t0; rc t1; zt], [rc r0; rc r1; zr]) ->
  t0 <> 0 -> t1 <> 0 ->
  let c := cos phi in
  let s := sin phi in
  let D := (1 + r0 * r1) * (1 + r0 * r1) * (c * c) +
           (1 - r0 * r1) * (1 - r0 * r1) * (s * s) in
  D <> 0 ->
  let L := amplitudes_and_power self pol th_i n_list th_list kz
             [z0; rc phi; z2] in
  xmul (xcabs (L_r L)) (xcabs (L_r L)) =
    Fin (((r0 + r1) * (r0 + r1) * (c * c) +
          (r0 - r1) * (r0 - r1) * (s * s)) / D) /\
  xcabs (xcmul (L_t L) (L_t L)) = Fin (t0 * t0 * (t1 * t1) / D).
Proof.
  intros HN HF Ht0 Ht1 c s D HD.
  cbv beta iota zeta delta [amplitudes_and_power L_r L_t]. rewrite HN, HF.
  unfold M_list_of, Mtilde_product, Mdiv, Mmul, Mscale. lists3.
  cbn [Get00 Get01 Get10 Get11 L_r L_t].
  xops. rewrite exp_minus_j, exp_plus_j. fold c s.
  rewrite rc_dcdiv by exact Ht1.
  unfold rc. rewrite !(fc_div _ _ t0 0) by nra.
  repeat first [rewrite fc_mul | rewrite fc_add].
  match goal with
  | |- context [xcdiv (fc ?a ?b) (fc ?x ?y)] =>
      replace x with ((1 + r0 * r1) * c / (t0 * t1)) by (field; tauto);
      replace y with (- ((1 - r0 * r1) * s) / (t0 * t1)) by (field; tauto);
      replace a with ((r0 + r1) * c / (t0 * t1)) by (field; tauto);
      replace b with (- ((r0 - r1) * s) / (t0 * t1)) by (field; tauto)
  end.
  assert (Htt : t0 * t1 <> 0) by nra.
  set (tt := t0 * t1) in *.
  assert (HM : (1 + r0 * r1) * c / tt * ((1 + r0 * r1) * c / tt) +
               - ((1 - r0 * r1) * s) / tt * (- ((1 - r0 * r1) * s) / tt) =
               D / (tt * tt)) by (unfold D; field; exact Htt).
  assert (HM0 : D / (tt * tt) <> 0).
  { unfold Rdiv. apply Rmult_integral_contrapositive_currified; [exact HD|].
    apply Rinv_neq_0_compat. nra. }
  unfold xdcdiv.
  rewrite !fc_div by (rewrite HM; exact HM0).
  rewrite HM. rewrite fc_abs_sq, fc_abs_of_sq.
  split; f_equal; unfold D, tt in *; field; repeat split; tauto.
Qed.

Lemma snell_ratio_bounds (n0 n th0 : R) :
  0 < n0 -> 0 < n -> 0 <= th0 < PI / 2 -> n0 * sin th0 < n ->
  0 <= n0 * sin th0 / n < 1.
Proof.
  intros Hn0 Hn Hth Hx.
  assert (Hs : 0 <= sin th0) by (apply sin_ge_0; lra).
  split.
  - apply Rmult_le_pos; [nra|]. apply Rlt_le, Rinv_0_lt_compat. lra.
  - apply Rmult_lt_reg_r with n; [lra|]. field_simplify; lra.
Qed.

(** Below every critical angle all three angles are real and forward. *)
Lemma ListSnell_film (n0 n1 d n2 th0 : R) (w : World) :
  0 < n0 -> 0 < n1 -> 0 < n2 -> 0 <= th0 < PI / 2 ->
  n0 * sin th0 < n1 -> n0 * sin th0 < n2 ->
  ListSnell (single_film n0 n1 d n2) (rc th0) [rc n0; rc n1; rc n2] [] w =
  ([rc th0; rc (asin (n0 * sin th0 / n1)); rc (asin (n0 * sin th0 / n2))], w).
Proof.
  intros Hn0 Hn1 Hn2 Hth Hx1 Hx2.
  assert (Hc : 0 < cos th0) by (apply cos_gt_0; lra).
  pose proof (snell_ratio_bounds n0 n1 th0 Hn0 Hn1 Hth Hx1) as Hb1.
  pose proof (snell_ratio_bounds n0 n2 th0 Hn0 Hn2 Hth Hx2) as Hb2.
  unfold ListSnell. xops. lists3.
  rewrite rc_sin, !rc_mul, !rc_div by lra.
  replace (n0 * sin th0 / n0) with (sin th0) by (field; lra).
  rewrite !rc_asin_inside by (try lra; pose proof (SIN_bound th0); lra).
  rewrite asin_sin by lra.
  unfold bind. rewrite IsForwardAngle_real by lra. lists3.
  rewrite IsForwardAngle_real by (try lra; apply cos_asin_pos; lra).
  reflexivity.
Qed.

(** The wave vectors and the phase of the film are real. *)
Lemma delta_film (n0 n1 n2 th0 th1 th2 lam d : R) :
  lam <> 0 ->
  exists z0 z2,
    delta_of 3 (kz_list_of 3 [rc n0; rc n1; rc n2] [rc th0; rc th1; rc th2]
                  (Fin lam)) [PInf; Fin d; PInf] =
    [z0; rc (2 * PI * n1 * cos th1 / lam * d); z2].
Proof.
  intros Hl. unfold delta_of, kz_list_of. lists3. xops.
  rewrite !rc_cos, !rc_dcmul, !rc_mul, !rc_cddiv, rc_cdmul by exact Hl.
  by eexists _, _.
Qed.

Lemma clamp_real_film (z0 z2 : xcomplex) (phi : R) (w : World) :
  clamp_opaque 3 [z0; rc phi; z2] w = ([z0; rc phi; z2], w).
Proof.
  unfold clamp_opaque. lists3. xops. cbn [im rc xlt].
  rewrite Rltb_false by lra. reflexivity.
Qed.

Lemma fresnel_film_S (n0 n1 n2 th0 th1 th2 : R) :
  let a0 := n0 * cos th0 in
  let a1 := n1 * cos th1 in
  let a2 := n2 * cos th2 in
  a0 + a1 <> 0 -> a1 + a2 <> 0 ->
  fresnel 3 kS [rc n0; rc n1; rc n2] [rc th0; rc th1; rc th2] =
  ([rc (2 * a0 / (a0 + a1)); rc (2 * a1 / (a1 + a2)); C_of_Z 0],
   [rc ((a0 - a1) / (a0 + a1)); rc ((a1 - a2) / (a1 + a2)); C_of_Z 0]).
Proof.
  intros a0 a1 a2 H0 H1. unfold fresnel. lists3. xops. lists3.
  rewrite !rc_cos, !rc_mul, !rc_dcmul, !rc_add, !rc_sub. fold a0 a1 a2.
  rewrite !rc_div by assumption. reflexivity.
Qed.

Lemma fresnel_film_P (n0 n1 n2 th0 th1 th2 : R) :
  let c0 := cos th0 in
  let c1 := cos th1 in
  let c2 := cos th2 in
  n1 * c0 + n0 * c1 <> 0 -> n2 * c1 + n1 * c2 <> 0 ->
  fresnel 3 kP [rc n0; rc n1; rc n2] [rc th0; rc th1; rc th2] =
  ([rc (2 * (n0 * c0) / (n1 * c0 + n0 * c1));
    rc (2 * (n1 * c1) / (n2 * c1 + n1 * c2)); C_of_Z 0],
   [rc ((n1 * c0 - n0 * c1) / (n1 * c0 + n0 * c1));
    rc ((n2 * c1 - n1 * c2) / (n2 * c1 + n1 * c2)); C_of_Z 0]).
Proof.
  intros c0 c1 c2 H0 H1. unfold fresnel. lists3. xops. lists3.
  rewrite !rc_cos, !rc_mul, !rc_dcmul, !rc_add, !rc_sub. fold c0 c1 c2.
  rewrite !rc_div by assumption. reflexivity.
Qed.

(** A Fresnel reflection coefficient of two positive terms lies strictly
    between -1 and 1, and the transmission coefficient is not zero. *)
Lemma ratio_bounds (a b : R) :
  0 < a -> 0 < b -> -1 < (a - b) / (a + b) < 1.
Proof.
  intros Ha Hb. split.
  - apply Rmult_lt_reg_r with (a + b); [lra|]. field_simplify; lra.
  - apply Rmult_lt_reg_r with (a + b); [lra|]. field_simplify; lra.
Qed.

Lemma airy_denominator_pos (r0 r1 phi : R) :
  -1 < r0 < 1 -> -1 < r1 < 1 ->
  0 < (1 + r0 * r1) * (1 + r0 * r1) * (cos phi * cos phi) +
      (1 - r0 * r1) * (1 - r0 * r1) * (sin phi * sin phi).
Proof.
  intros H0 H1. pose proof (sin2_cos2 phi) as Hsc. unfold Rsqr in Hsc.
  assert (Hp : -1 < r0 * r1 < 1) by nra.
  set (c2 := cos phi * cos phi) in *. set (s2 := sin phi * sin phi) in *.
  assert (Hc2 : 0 <= c2) by (unfold c2; nra).
  assert (Hs2 : 0 <= s2) by (unfold s2; nra).
  set (u := (1 + r0 * r1) * (1 + r0 * r1)).
  set (v := (1 - r0 * r1) * (1 - r0 * r1)).
  assert (Hu : 0 < u) by (unfold u; nra).
  assert (Hv : 0 < v) by (unfold v; nra).
  destruct (Rle_lt_dec c2 (1 / 2)); nra.
Qed.

(** A solve of a single film between two media, all of real positive
    index, below every critical angle. *)
Lemma CoherentTMM_film (pol : EPolarization) (n0 n1 n2 d th0 lam : R)
    (w : World) :
  0 < n0 -> 0 < n1 -> 0 < n2 -> 0 <= th0 < PI / 2 ->
  n0 * sin th0 < n1 -> n0 * sin th0 < n2 -> lam <> 0 ->
  let c0 := cos th0 in
  let c1 := cos (asin (n0 * sin th0 / n1)) in
  let c2 := cos (asin (n0 * sin th0 / n2)) in
  let a0 := match pol with kS => n0 * c0 | kP => n1 * c0 end in
  let b0 := match pol with kS => n1 * c1 | kP => n0 * c1 end in
  let a1 := match pol with kS => n1 * c1 | kP => n2 * c1 end in
  let b1 := match pol with kS => n2 * c2 | kP => n1 * c2 end in
  let r0 := (a0 - b0) / (a0 + b0) in
  let r1 := (a1 - b1) / (a1 + b1) in
  let t0 := 2 * (n0 * c0) / (a0 + b0) in
  let t1 := 2 * (n1 * c1) / (a1 + b1) in
  let phi := 2 * PI * n1 * c1 / lam * d in
  let c := cos phi in
  let s := sin phi in
  let D := (1 + r0 * r1) * (1 + r0 * r1) * (c * c) +
           (1 - r0 * r1) * (1 - r0 * r1) * (s * s) in
  (0 < c0 /\ 0 < c1 /\ 0 < c2 /\ 0 < D) /\
  CoherentTMM (single_film n0 n1 d n2) pol (rc th0) (Fin lam) w =
  (MkOutputs
     (Some (Fin (((r0 + r1) * (r0 + r1) * (c * c) +
                  (r0 - r1) * (r0 - r1) * (s * s)) / D)))
     (Some (Fin (t0 * t0 * (t1 * t1) / D * (n2 * c2 / (n0 * c0))))), w).
Proof.
  intros Hn0 Hn1 Hn2 Hth Hx1 Hx2 Hl c0 c1 c2 a0 b0 a1 b1 r0 r1 t0 t1 phi c s D.
  assert (Hc0 : 0 < c0) by (apply cos_gt_0; lra).
  pose proof (snell_ratio_bounds n0 n1 th0 Hn0 Hn1 Hth Hx1) as Hb1.
  pose proof (snell_ratio_bounds n0 n2 th0 Hn0 Hn2 Hth Hx2) as Hb2.
  assert (Hc1 : 0 < c1) by (apply cos_asin_pos; lra).
  assert (Hc2 : 0 < c2) by (apply cos_asin_pos; lra).
  assert (Ha0 : 0 < a0) by (destruct pol; unfold a0; nra).
  assert (Hb0 : 0 < b0) by (destruct pol; unfold b0; nra).
  assert (Ha1 : 0 < a1) by (destruct pol; unfold a1; nra).
  assert (Hb1' : 0 < b1) by (destruct pol; unfold b1; nra).
  assert (Hi : 0 < n0 * c0) by nra.
  assert (Hi1 : 0 < n1 * c1) by nra.
  pose proof (ratio_bounds a0 b0 Ha0 Hb0) as Hr0. fold r0 in Hr0.
  pose proof (ratio_bounds a1 b1 Ha1 Hb1') as Hr1. fold r1 in Hr1.
  pose proof (airy_denominator_pos r0 r1 phi Hr0 Hr1) as HD.
  fold c s D in HD.
  assert (Ht0 : t0 <> 0).
  { apply Rgt_not_eq. apply Rdiv_lt_0_compat; lra. }
  assert (Ht1 : t1 <> 0).
  { apply Rgt_not_eq. apply Rdiv_lt_0_compat; lra. }
  split; [tauto|].
  unfold CoherentTMM, CoherentTMM_locals. cbv zeta.
  rewrite n_list_of_single_film. unfold bind.
  rewrite input_tests_real by first [exact Hn0 | exact Hc0].
  rewrite ListSnell_film by assumption.
  change (length (fRefractiveIndexList (single_film n0 n1 d n2))) with 3%nat.
  change (fThicknessList (single_film n0 n1 d n2)) with [PInf; Fin d; PInf].
  set (kz := kz_list_of _ _ _ _).
  destruct (delta_film n0 n1 n2 th0 (asin (n0 * sin th0 / n1))
              (asin (n0 * sin th0 / n2)) lam d Hl) as (z0 & z2 & Hdelta).
  fold kz in Hdelta. rewrite Hdelta. fold c1 phi.
  rewrite clamp_real_film. unfold ret.
  assert (HN : length (fRefractiveIndexList (single_film n0 n1 d n2)) = 3%nat)
    by reflexivity.
  assert (HF : exists zt zr,
             fresnel 3 pol [rc n0; rc n1; rc n2]
               [rc th0; rc (asin (n0 * sin th0 / n1));
                rc (asin (n0 * sin th0 / n2))] =
             ([rc t0; rc t1; zt], [rc r0; rc r1; zr])).
  { destruct pol.
    - rewrite fresnel_film_S by (fold c0 c1 c2; unfold a0, b0, a1, b1 in *; lra).
      by eexists _, _.
    - rewrite fresnel_film_P by (fold c0 c1 c2; unfold a0, b0, a1, b1 in *; lra).
      by eexists _, _. }
  destruct HF as (zt & zr & HF).
  match goal with
  | |- context [amplitudes_and_power ?sf ?po ?ti ?nl ?tl ?k ?de] =>
      set (L := amplitudes_and_power _ _ _ _ _ _ _);
      destruct (film_amplitudes sf po ti nl tl k z0 z2 zt zr t0 t1 r0 r1 phi
                  HN HF Ht0 Ht1 ltac:(fold c s D; lra)) as [HR HT]
  end.
  fold L c s D in HR, HT.
  assert (HLR : L_reflectance L =
                xmul (xcabs (L_r L)) (xcabs (L_r L))) by reflexivity.
  assert (HLT : L_transmittance L =
                xmul (xcabs (xcmul (L_t L) (L_t L)))
                  (xdiv (Fin (n2 * c2)) (Fin (n0 * c0)))).
  { unfold L, amplitudes_and_power. cbn [L_transmittance L_t].
    destruct pol; xops; unfold back; lists3;
      rewrite ?rc_cos, ?rc_conj, !rc_mul; reflexivity. }
  rewrite HLR, HLT, HR, HT. rewrite xdiv_Fin by lra. reflexivity.
Qed.



(** X13.  The quarter-wave coating.  At normal incidence a film with
    [n1^2 = n0 n2] and optical thickness [n1 d = lam / 4] reflects
    nothing: a solve in exact arithmetic assigns [R = 0] and [T = 1]
    for both polarizations. *)
Theorem quarter_wave_coating (pol : EPolarization) (n0 n1 n2 d lam : R)
    (w : World) :
  0 < n0 -> 0 < n1 -> 0 < n2 ->
  n1 * n1 = n0 * n2 -> lam <> 0 -> 4 * n1 * d = lam ->
  CoherentTMM (single_film n0 n1 d n2) pol (rc 0) (Fin lam) w =
  (MkOutputs (Some (Fin 0)) (Some (Fin 1)), w).
Proof.
  intros Hn0 Hn1 Hn2 Hq Hl Hd. pose proof PI_RGT_0 as HPI.
  assert (Hth : 0 <= 0 < PI / 2) by lra.
  assert (Hx1 : n0 * sin 0 < n1) by (rewrite sin_0; lra).
  assert (Hx2 : n0 * sin 0 < n2) by (rewrite sin_0; lra).
  destruct (CoherentTMM_film pol n0 n1 n2 d 0 lam w Hn0 Hn1 Hn2 Hth Hx1 Hx2
              Hl) as [_ ->].
  rewrite sin_0.
  replace (n0 * 0 / n1) with 0 by (field; lra).
  replace (n0 * 0 / n2) with 0 by (field; lra).
  rewrite asin_0, cos_0.
  replace (2 * PI * n1 * 1 / lam * d) with (PI / 2)
    by (rewrite <- Hd; field; split; [|lra]; intros ->; lra).
  rewrite cos_PI2, sin_PI2.
  assert (Hn2' : n2 = n1 * n1 / n0) by (rewrite Hq; field; lra).
  rewrite Hn2'.
  assert (Hp1 : 0 < n1 * n0) by (apply Rmult_lt_0_compat; lra).
  assert (Hp2 : 0 < n1 * n1) by (apply Rmult_lt_0_compat; lra).
  assert (Hp3 : 0 < n0 * (n1 * n1)) by (apply Rmult_lt_0_compat; lra).
  do 2 f_equal; f_equal; f_equal; destruct pol; field; repeat split; nra.
Qed.



(** X13: 100 nm of index 3/2 on a substrate of index 9/4, at 600 nm. *)
Lemma quarter_wave_coating_at_600 :
  (0 < 1 /\ 0 < 3 / 2 /\ 0 < 9 / 4 /\ 3 / 2 * (3 / 2) = 1 * (9 / 4) /\
   600 <> 0 /\ 4 * (3 / 2) * 100 = 600) /\
  CoherentTMM (single_film 1 (3 / 2) 100 (9 / 4)) kS (rc 0) (Fin 600)
    initial_world =
  (MkOutputs (Some (Fin 0)) (Some (Fin 1)), initial_world).
Proof.
  assert (H0 : 0 < 1) by lra.
  assert (H1 : 0 < 3 / 2) by lra.
  assert (H2 : 0 < 9 / 4) by lra.
  assert (Hq : 3 / 2 * (3 / 2) = 1 * (9 / 4)) by lra.
  assert (Hl : 600 <> 0) by lra.
  assert (Hd : 4 * (3 / 2) * 100 = 600) by lra.
  split; [tauto|].
  exact (quarter_wave_coating kS 1 (3 / 2) (9 / 4) 100 600 initial_world
           H0 H1 H2 Hq Hl Hd).
Defined.

(** ** IsForwardAngle on a real index and a real angle *)

(** X14.  For a real positive index and a real angle, in exact
    arithmetic, [IsForwardAngle] answers [cos th > 0]; it prints nothing
    when it answers yes, and every time it answers no it prints
    "It's not clear ..." once: the last check of that branch (line 83)
    fires when [Re(n cos(conj th))] is below [100 eps], which a backward
    angle always satisfies. *)
Theorem IsForwardAngle_real_angle (n th : R) (w : World) :
  0 < n ->
  let m := IsForwardAngle (rc n) (rc th) in
  fst (m w) = Rltb 0 (cos th) /\
  printed m w =
    (if Rltb 0 (cos th) then [] else [MsgUnclear (rc n) (rc th)]) /\
  opacity_warning (snd (m w)) = opacity_warning w.
Proof.
  intros Hn m. pose proof EPSILON_pos as He. destruct w as [l e].
  unfold printed, m.
  destruct (Rlt_dec 0 (cos th)) as [Hc|Hc].
  - rewrite (Rltb_true _ _ Hc), IsForwardAngle_real by assumption.
    cbn [fst snd errors opacity_warning]. by rewrite drop_all.
  - rewrite (Rltb_false _ _ Hc).
    assert (Hp : n * cos th <= 0) by nra.
    assert (Hrun : IsForwardAngle (rc n) (rc th) (MkWorld l e) =
                   (false, MkWorld l (e ++ [MsgUnclear (rc n) (rc th)]))).
    { unfold IsForwardAngle. xops.
      rewrite rc_conj, rc_cos, rc_mul. cbn [re im rc xmul xabs xlt xle].
      replace (n * 0) with 0 by lra. rewrite Rabs_R0. decide_cmp.
      unfold bind, when, ret, Error. cbn [opacity_warning errors].
      reflexivity. }
    rewrite Hrun. cbn [fst snd errors opacity_warning].
    by rewrite drop_app_length.
Qed.

(** X14 for air at [th = PI]. *)
Lemma IsForwardAngle_real_angle_at_PI :
  0 < 1 /\
  fst (IsForwardAngle (rc 1) (rc PI) initial_world) = Rltb 0 (cos PI).
Proof.
  assert (H1 : 0 < 1) by lra.
  split; [exact H1|].
  exact (proj1 (IsForwardAngle_real_angle 1 PI initial_world H1)).
Defined.

End ExactOptics.

(** * Energy conservation in exact arithmetic *)

Module Conservation.

Import Exact ExactRuns ExactOptics.
Local Open Scope R_scope.
Local Abbreviation fc a b := (MkC (Fin a) (Fin b)).

(** ** A film at its critical angle *)













(** ** Matrices of the form [[u v][conj v, conj u]]

    With real Fresnel coefficients and real phases every factor of the
    total matrix has this form, the form is closed under the product,
    and [|u|^2 - |v|^2] is multiplicative. *)







(** ** Matrices whose first column has two entries of equal modulus

    This is what the matrix of an interface with an evanescent far side
    looks like, and what stays true of a product with such a last
    factor. *)







(** ** Stacks of real positive index *)




(** The first [K] layers are below their critical angle. *)
Section RealStack.

Variable self : AMultilayer.
Variable pol : EPolarization.
Variables th0 lam : R.
Variables n d : nat -> R.
Variable K : nat.

Let N := num_layers self.
Let n_list := n_list_of self (Fin lam).
Let th_list := ListSnell_value self (rc th0) n_list [].
Let th i := asin (n 0%nat * sin th0 / n i).
Let q i := n i * cos (th i).
Let a i := match pol with kS => n i * cos (th i)
                        | kP => n (i + 1)%nat * cos (th i) end.
Let b i := match pol with kS => n (i + 1)%nat * cos (th (i + 1)%nat)
                        | kP => n i * cos (th (i + 1)%nat) end.
Let r i := (a i - b i) / (a i + b i).
Let t i := 2 * (n i * cos (th i)) / (a i + b i).
Let phi i := 2 * PI * n i * cos (th i) / lam * d i.
Let delta :=
  clamp_value N (delta_of N (kz_list_of N n_list th_list (Fin lam))
                   (fThicknessList self)).
Let tr := fresnel N pol n_list th_list.
Let M_list := M_list_of N (fst tr) (snd tr) delta.

Hypothesis HN : (2 <= N)%nat.
Hypothesis HK : (1 <= K <= N)%nat.
Hypothesis Hindex : forall i, (i < N)%nat ->
  GetComplexRefractiveIndex (fRefractiveIndexList self !!! i) (Fin lam) =
  rc (n i).
Hypothesis Hpos : forall i, (i < N)%nat -> 0 < n i.
Hypothesis Hth0 : 0 <= th0 < PI / 2.
Hypothesis Hcrit : forall i, (1 <= i < K)%nat -> n 0%nat * sin th0 < n i.
Hypothesis Hthick : forall i, (1 <= i <= N - 2)%nat ->
  fThicknessList self !!! i = Fin (d i).
Hypothesis Hlam : lam <> 0.
























(** *** Every layer below its critical angle *)

Section Refracting.

Hypothesis HKN : K = N.



End Refracting.

(** *** The last layer at or beyond its critical angle *)

Section Reflecting.

Hypothesis HKN : K = (N - 1)%nat.
Hypothesis Hlast : n (N - 1)%nat <= n 0%nat * sin th0.

Let l := evanescent (n 0%nat * sin th0 / n (N - 1)%nat).






End Reflecting.

End RealStack.



End Conservation.
